(** * Streaming pipeline of the PCA image demo: worker.js and app.js

    The page runs two scripts that share no memory.  The worker script
    produces frames in a loop and posts them to the page; the page script
    (app.js) queues them, fills a ring of [BUFFER_SIZE] textures, then
    cross-fades between two ring slots while the next frame is uploaded a
    few rows per animation frame.

    Both scripts are event-loop programs: a task (a message handler or a
    requestAnimationFrame callback) runs to completion together with the
    promise continuations it wakes, and tasks of the two scripts interleave
    freely.  The embedding keeps one record per script for its globals,
    one Rocq function per source function, and an explicit list for each
    direction of [postMessage] traffic; messages posted in one direction are
    handled in the order of posting.  A promise continuation suspended in
    [await] is a value of a small continuation type stored where the source
    stores the promise's [resolve] function.

    Numbers.  Row counts, slot indices and credits are integer-valued
    JavaScript numbers far below 2^53 and are modelled in [Z]; [Math.floor]
    of the quotient of two of them is [Z.div] (the rounded quotient of two
    such integers has the floor of the exact one).  The cross-fade clock
    [t], its step [dt] and the quotient [(1.0 - t) / dt] are binary64
    numbers.  A finite binary64 number is represented by its value, a
    rational, and every operation of the code on the clock rounds its exact
    result to the nearest binary64 number, ties to even ([Binary64.round],
    built from the rounding of the Standard Library's specification of
    IEEE 754 arithmetic).  The literal [steps] is a finite binary64
    number.  Pixel buffers are represented by the serial number of the
    generation that filled them. *)

From Stdlib Require Import ZArith QArith Qround Qfield List Bool Lia.
From Stdlib Require Import Floats.SpecFloat.
Import ListNotations.
Local Open Scope Z_scope.

(** ** Binary64 arithmetic *)

Module Binary64.

Definition prec : Z := 53.
Definition emax : Z := 1024.

(** The value of a binary64 number.  An infinity, which none of the
    quantities below reaches from a finite [steps], is given the value
    [2 ^ 1024] with its sign: like the infinity it exceeds every row count,
    which is all the code asks of it. *)
Definition toQ (f : spec_float) : Q :=
  match f with
  | S754_zero _ => 0
  | S754_nan => 0
  | S754_infinity s => inject_Z (cond_Zopp s (2 ^ emax))
  | S754_finite s m e =>
      match e with
      | Zneg p => cond_Zopp s (Zpos m) # (2 ^ p)
      | _ => inject_Z (cond_Zopp s (Zpos m * 2 ^ e))
      end
  end.

(** The binary64 number nearest to [n / d], ties to even, with sign [s]:
    the quotient is developed and rounded as [SFdiv] does for two
    mantissas. *)
Definition quotient (s : bool) (n d : positive) : spec_float :=
  let '(mz, ez, lz) := SFdiv_core_binary prec emax (Zpos n) 0 (Zpos d) 0 in
  binary_round_aux prec emax s mz ez lz.

Definition nearest (x : Q) : spec_float :=
  match Qnum x with
  | Z0 => S754_zero false
  | Zpos n => quotient false n (Qden x)
  | Zneg n => quotient true n (Qden x)
  end.

(** The result of an arithmetic operation whose exact result is [x]. *)
Definition round (x : Q) : Q := toQ (nearest x).

(** The number a literal or an integer-valued expression denotes. *)
Definition ofZ (z : Z) : Q := round (inject_Z z).

(** The Standard Library's operations on binary64 numbers, to compare
    [round] with: whether, along [n] additions of [dt] to the clock, the
    sums [t + dt] and the quotients [(1.0 - t) / dt] computed with [SFadd],
    [SFsub] and [SFdiv] have the values computed with [round]. *)
Definition fromZ (z : Z) : spec_float := binary_normalize prec emax z 0 false.

Definition same (f : spec_float) (x : Q) : bool := Qeq_bool (toQ f) x.

Fixpoint clock_agrees (n : nat) (dtF tF : spec_float) (dtQ tQ : Q) : bool :=
  same tF tQ
  && same (SFdiv prec emax (SFsub prec emax (fromZ 1) tF) dtF) (round (round (1 - tQ) / dtQ))
  && match n with
     | O => true
     | S n' => clock_agrees n' dtF (SFadd prec emax tF dtF) dtQ (round (tQ + dtQ))
     end.

Definition agrees (steps : Z) : bool :=
  let dtF := SFdiv prec emax (fromZ 1) (fromZ steps) in
  let dtQ := round (1 / ofZ steps) in
  same dtF dtQ && clock_agrees (Z.to_nat steps + 1) dtF (S754_zero false) dtQ 0.

End Binary64.

(** ** Messages exchanged by the two scripts *)

Module Msg.

(** [{ slotIdx, data, generationTime }] as returned by [generateImage] and
    queued by the page as [{ slotIdx, imageData, generationTime }].  The
    latency measurement only feeds the statistics line and is left out. *)
Record Item := mkItem { slotIdx : Z; imageData : Z }.

(** Messages of the worker to the page ([self.postMessage]). *)
Inductive FromWorker :=
| Ready
| Image (it : Item)
| Error.

(** Messages of the page to the worker ([worker.postMessage]). *)
Inductive ToWorker :=
| StartGenerating
| QueueHasSpace.

End Msg.

(** ** The worker script *)

(** The functions below are the same in every version of the worker
    script.  [init()] runs once per worker, at load in the first version
    and on the page's 'set_grid' message in the later ones; here it is
    running in the initial state. *)

Module Worker.

Record State := mkState {
  isInitialized : bool;
  initRunning : bool;                    (* [init()] started at load, not settled yet *)
  slotIdx : Z;
  queueSpaceAvailable : Z;
  queueSpaceWaiters : list Msg.Item;     (* a suspended [await waitToSend()], with the [result] it will post *)
  generating : nat;                      (* runs of [continuousGenerate] awaiting [generateImage()] *)
  toMain : list Msg.FromWorker;          (* posted, not delivered yet *)
  posted : list Msg.Item;                (* history: every image posted so far *)
  produced : Z;                          (* history: number of buffers generated so far *)
  grants : nat                           (* history: 'start_generating' messages handled *)
}.

Definition initial : State :=
  mkState false true 0 0 [] 0 [] [] 0 0.

Definition set_queueSpaceAvailable (c : Z) (w : State) : State :=
  mkState (isInitialized w) (initRunning w) (slotIdx w) c (queueSpaceWaiters w)
          (generating w) (toMain w) (posted w) (produced w) (grants w).

Definition set_queueSpaceWaiters (ws : list Msg.Item) (w : State) : State :=
  mkState (isInitialized w) (initRunning w) (slotIdx w) (queueSpaceAvailable w) ws
          (generating w) (toMain w) (posted w) (produced w) (grants w).

Definition set_generating (g : nat) (w : State) : State :=
  mkState (isInitialized w) (initRunning w) (slotIdx w) (queueSpaceAvailable w)
          (queueSpaceWaiters w) g (toMain w) (posted w) (produced w) (grants w).

Definition set_toMain (q : list Msg.FromWorker) (w : State) : State :=
  mkState (isInitialized w) (initRunning w) (slotIdx w) (queueSpaceAvailable w)
          (queueSpaceWaiters w) (generating w) q (posted w) (produced w) (grants w).

(** [self.postMessage(msg)]; an image also enters the history. *)
Definition postMessage (msg : Msg.FromWorker) (w : State) : State :=
  mkState (isInitialized w) (initRunning w) (slotIdx w) (queueSpaceAvailable w)
          (queueSpaceWaiters w) (generating w) (toMain w ++ [msg])
          (match msg with Msg.Image it => posted w ++ [it] | _ => posted w end)
          (produced w) (grants w).

Section WithRing.

Variable BUFFER_SIZE : Z.

(** [init()]: on success sets [isInitialized] and posts 'ready'; a failure
    is caught and posted as 'error'. *)
Definition init (ok : bool) (w : State) : State :=
  let w1 := mkState (if ok then true else isInitialized w) false (slotIdx w)
                    (queueSpaceAvailable w) (queueSpaceWaiters w) (generating w)
                    (toMain w) (posted w) (produced w) (grants w) in
  postMessage (if ok then Msg.Ready else Msg.Error) w1.

(** [waitToSend()]: takes a credit when there is one (the promise is
    resolved at once, [true]); otherwise the resolver is stored. *)
Definition waitToSend (resolve : Msg.Item) (w : State) : State * bool :=
  if 0 <? queueSpaceAvailable w
  then (set_queueSpaceAvailable (queueSpaceAvailable w - 1) w, true)
  else (set_queueSpaceWaiters (queueSpaceWaiters w ++ [resolve]) w, false).

(** [generateImage()] at the point where its computation settles.
    [throws] says whether the numeric part raised; then 'error' is posted
    and [null] returned, before the slot counter is touched. *)
Definition generateImage (throws : bool) (w : State) : State * option Msg.Item :=
  if negb (isInitialized w) then (w, None)
  else if throws then (postMessage Msg.Error w, None)
  else
    let currentSlot := slotIdx w in
    (mkState (isInitialized w) (initRunning w) ((slotIdx w + 1) mod BUFFER_SIZE)
             (queueSpaceAvailable w) (queueSpaceWaiters w) (generating w)
             (toMain w) (posted w) (produced w + 1) (grants w),
     Some (Msg.mkItem currentSlot (produced w))).

(** The rest of one turn of [continuousGenerate]'s loop after
    [await waitToSend()]: post the image and start the next generation. *)
Definition sendResult (result : Msg.Item) (w : State) : State :=
  postMessage (Msg.Image result) w.

(** One turn of the [while (true)] loop of [continuousGenerate], run when
    the pending [generateImage()] settles.  The run stays among the
    generating ones unless it suspends in [await waitToSend()]. *)
Definition continuousGenerate (throws : bool) (w : State) : State :=
  let (w1, result) := generateImage throws w in
  match result with
  | Some r =>
      let (w2, resolved) := waitToSend r w1 in
      if resolved then sendResult r w2
      else set_generating (pred (generating w2)) w2
  | None => w1
  end.

(** [self.onmessage]. *)
Definition onmessage (msg : Msg.ToWorker) (w : State) : State :=
  match msg with
  | Msg.StartGenerating =>
      mkState (isInitialized w) (initRunning w) (slotIdx w) BUFFER_SIZE
              (queueSpaceWaiters w) (S (generating w)) (toMain w) (posted w)
              (produced w) (S (grants w))
  | Msg.QueueHasSpace =>
      match queueSpaceWaiters w with
      | resolve :: rest =>
          let w1 := set_queueSpaceWaiters rest w in
          set_generating (S (generating w1)) (sendResult resolve w1)
      | [] => set_queueSpaceAvailable (queueSpaceAvailable w + 1) w
      end
  end.

End WithRing.

End Worker.

(** ** The page script (app.js) *)

Module App.

(** Who is suspended in [await queueGet()]: iteration [i] of the loop of
    [fillBuffer], or [animate] after a rotation.  Stands for the promise's
    [resolve] function kept in [queueWaiters]. *)
Inductive Cont :=
| KFill (i : Z)
| KAnimate.

(** [pendingUpload = { slotIdx, pboIdx, rgbData, rowsUploaded }]. *)
Record PendingUpload := mkPending {
  slotIdx : Z;
  pboIdx : Z;
  rgbData : Z;
  rowsUploaded : Z
}.

(** Texture uploads issued to WebGL. *)
Inductive GLCall :=
| UploadComplete (slot : Z)                                (* [uploadTextureComplete] *)
| UploadChunk (texIdx pbo yOffset chunkHeight : Z).        (* [uploadTextureChunkWithPBO] *)

(** Lines written with [console.error] and dialogs opened with [alert]. *)
Inductive Report :=
| PendingUploadNotFinished      (* 'ERROR: Pending upload not finished!' *)
| WorkerError                   (* 'Worker error:' *)
| Alert.                        (* alert('Error: ' + data) *)

(** A resolved [queueGet()]: who received which item, and the values of
    [currTexIdx] and [nextTexIdx] at that moment. *)
Record Receipt := mkReceipt {
  by_cont : Cont;
  at_curr : Z;
  at_next : Z;
  item : Msg.Item
}.

Record State := mkState {
  isReady : bool;
  currTexIdx : Z;
  nextTexIdx : Z;
  t : Q;
  imageQueue : list Msg.Item;
  queueWaiters : list Cont;
  pendingUpload : option PendingUpload;
  rafScheduled : bool;                  (* [requestAnimationFrame(animate)] outstanding *)
  toWorker : list Msg.ToWorker;         (* posted, not delivered yet *)
  posts : list Msg.ToWorker;            (* history: every message posted *)
  console : list Report;                (* history *)
  glCalls : list GLCall;                (* history *)
  received : list Receipt;              (* history *)
  getCalls : Z                          (* history: calls of [queueGet] *)
}.

Definition initial : State :=
  mkState false 0 1 0%Q [] [] None false [] [] [] [] [] 0.

Definition set_isReady (b : bool) (m : State) : State :=
  mkState b (currTexIdx m) (nextTexIdx m) (t m) (imageQueue m) (queueWaiters m)
          (pendingUpload m) (rafScheduled m) (toWorker m) (posts m) (console m)
          (glCalls m) (received m) (getCalls m).

Definition set_texIdx (c n : Z) (m : State) : State :=
  mkState (isReady m) c n (t m) (imageQueue m) (queueWaiters m)
          (pendingUpload m) (rafScheduled m) (toWorker m) (posts m) (console m)
          (glCalls m) (received m) (getCalls m).

Definition set_t (x : Q) (m : State) : State :=
  mkState (isReady m) (currTexIdx m) (nextTexIdx m) x (imageQueue m) (queueWaiters m)
          (pendingUpload m) (rafScheduled m) (toWorker m) (posts m) (console m)
          (glCalls m) (received m) (getCalls m).

Definition set_imageQueue (q : list Msg.Item) (m : State) : State :=
  mkState (isReady m) (currTexIdx m) (nextTexIdx m) (t m) q (queueWaiters m)
          (pendingUpload m) (rafScheduled m) (toWorker m) (posts m) (console m)
          (glCalls m) (received m) (getCalls m).

Definition set_queueWaiters (ws : list Cont) (m : State) : State :=
  mkState (isReady m) (currTexIdx m) (nextTexIdx m) (t m) (imageQueue m) ws
          (pendingUpload m) (rafScheduled m) (toWorker m) (posts m) (console m)
          (glCalls m) (received m) (getCalls m).

Definition set_pendingUpload (p : option PendingUpload) (m : State) : State :=
  mkState (isReady m) (currTexIdx m) (nextTexIdx m) (t m) (imageQueue m) (queueWaiters m)
          p (rafScheduled m) (toWorker m) (posts m) (console m)
          (glCalls m) (received m) (getCalls m).

Definition set_rafScheduled (b : bool) (m : State) : State :=
  mkState (isReady m) (currTexIdx m) (nextTexIdx m) (t m) (imageQueue m) (queueWaiters m)
          (pendingUpload m) b (toWorker m) (posts m) (console m)
          (glCalls m) (received m) (getCalls m).

Definition set_toWorker (q : list Msg.ToWorker) (m : State) : State :=
  mkState (isReady m) (currTexIdx m) (nextTexIdx m) (t m) (imageQueue m) (queueWaiters m)
          (pendingUpload m) (rafScheduled m) q (posts m) (console m)
          (glCalls m) (received m) (getCalls m).

(** [worker.postMessage(msg)]. *)
Definition postMessage (msg : Msg.ToWorker) (m : State) : State :=
  mkState (isReady m) (currTexIdx m) (nextTexIdx m) (t m) (imageQueue m) (queueWaiters m)
          (pendingUpload m) (rafScheduled m) (toWorker m ++ [msg]) (posts m ++ [msg])
          (console m) (glCalls m) (received m) (getCalls m).

Definition report (r : Report) (m : State) : State :=
  mkState (isReady m) (currTexIdx m) (nextTexIdx m) (t m) (imageQueue m) (queueWaiters m)
          (pendingUpload m) (rafScheduled m) (toWorker m) (posts m) (console m ++ [r])
          (glCalls m) (received m) (getCalls m).

Definition glCall (c : GLCall) (m : State) : State :=
  mkState (isReady m) (currTexIdx m) (nextTexIdx m) (t m) (imageQueue m) (queueWaiters m)
          (pendingUpload m) (rafScheduled m) (toWorker m) (posts m) (console m)
          (glCalls m ++ [c]) (received m) (getCalls m).

(** The continuation [k] resumes with [it]. *)
Definition receive (k : Cont) (it : Msg.Item) (m : State) : State :=
  mkState (isReady m) (currTexIdx m) (nextTexIdx m) (t m) (imageQueue m) (queueWaiters m)
          (pendingUpload m) (rafScheduled m) (toWorker m) (posts m) (console m)
          (glCalls m) (received m ++ [mkReceipt k (currTexIdx m) (nextTexIdx m) it])
          (getCalls m).

Definition countGet (m : State) : State :=
  mkState (isReady m) (currTexIdx m) (nextTexIdx m) (t m) (imageQueue m) (queueWaiters m)
          (pendingUpload m) (rafScheduled m) (toWorker m) (posts m) (console m)
          (glCalls m) (received m) (getCalls m + 1).

Definition len {A} (l : list A) : Z := Z.of_nat (length l).
Arguments len : simpl never.

(** [t > 1.0] *)
Definition exceeds_one (x : Q) : bool := negb (Qle_bool x 1).

Section WithConstants.

Variable BUFFER_SIZE : Z.
Variable g_tex_H : Z.
Variable steps : Z.

Definition MAX_QUEUE_SIZE : Z := BUFFER_SIZE.
(** [const dt = 1.0 / steps] *)
Definition dt : Q := Binary64.round (1 / Binary64.ofZ steps).

(** [queuePut(item)], the synchronous part.  The second component is the
    promise it resolved, if any: the waiter woken and the item handed to it;
    that continuation runs after [queuePut] has returned. *)
Definition queuePut (it : Msg.Item) (m : State) : State * option (Cont * Msg.Item) :=
  let m1 := set_imageQueue (imageQueue m ++ [it]) m in
  let '(m2, woken) :=
    match queueWaiters m1 with
    | resolve :: rest =>
        let nextItem := hd it (imageQueue m1) in
        (set_imageQueue (tl (imageQueue m1)) (set_queueWaiters rest m1),
         Some (resolve, nextItem))
    | [] => (m1, None)
    end in
  let m3 := if len (imageQueue m2) <? MAX_QUEUE_SIZE
            then postMessage Msg.QueueHasSpace m2 else m2 in
  (m3, woken).

(** [queueGet()] called by the continuation [k].  Returns the item when the
    promise is resolved at once; otherwise [k] is stored in [queueWaiters]. *)
Definition queueGet (k : Cont) (m : State) : State * option Msg.Item :=
  let m := countGet m in
  match imageQueue m with
  | it :: rest =>
      let m1 := set_imageQueue rest m in
      let m2 := if len (imageQueue m1) <? MAX_QUEUE_SIZE
                then postMessage Msg.QueueHasSpace m1 else m1 in
      (m2, Some it)
  | [] => (set_queueWaiters (queueWaiters m ++ [k]) m, None)
  end.

(** [uploadTextureChunkWithPBO(texIdx, pboIdx, rgbData, yOffset, chunkHeight)] *)
Definition uploadTextureChunkWithPBO (texIdx pbo yOffset chunkHeight : Z) (m : State) : State :=
  glCall (UploadChunk texIdx pbo yOffset chunkHeight) m.

(** [uploadTextureComplete(slotIdx, imageData)] *)
Definition uploadTextureComplete (slot : Z) (m : State) : State :=
  glCall (UploadComplete slot) m.

(** [Math.max(1, Math.floor((1.0 - t) / dt))] *)
Definition framesLeft (x : Q) : Z :=
  Z.max 1 (Qfloor (Binary64.round (Binary64.round (1 - x) / dt))).

Definition rowsToUpload (rowsLeft : Z) (x : Q) : Z :=
  Z.min rowsLeft (rowsLeft / framesLeft x + 1).

(** [processProgressiveUpload()] *)
Definition processProgressiveUpload (m : State) : State :=
  match pendingUpload m with
  | None => m
  | Some pu =>
      let rowsLeft := g_tex_H - rowsUploaded pu in
      let n := rowsToUpload rowsLeft (t m) in
      let m1 := uploadTextureChunkWithPBO (slotIdx pu) (pboIdx pu) (rowsUploaded pu) n m in
      let pu' := mkPending (slotIdx pu) (pboIdx pu) (rgbData pu) (rowsUploaded pu + n) in
      if g_tex_H <=? rowsUploaded pu'
      then set_pendingUpload None m1
      else set_pendingUpload (Some pu') m1
  end.

(** Steps 3 and 4 of [animate]: draw (no effect on the state kept here),
    advance the clock, ask for the next animation frame. *)
Definition animate_finish (m : State) : State :=
  set_rafScheduled true (set_t (Binary64.round (t m + dt)) m).

(** [animate] from the point where [await queueGet()] yields its item. *)
Definition animate_resume (it : Msg.Item) (m : State) : State :=
  animate_finish
    (set_pendingUpload
       (Some (mkPending (Msg.slotIdx it) (Msg.slotIdx it) (Msg.imageData it) 0)) m).

(** Step 1 of [animate]. *)
Definition animate_upload (m : State) : State :=
  match pendingUpload m with
  | Some _ => processProgressiveUpload m
  | None => m
  end.

(** The rotation block of step 2, up to the call of [queueGet]. *)
Definition rotate (m : State) : State :=
  let m1 := set_t 0%Q m in
  let m2 := set_texIdx ((currTexIdx m1 + 1) mod BUFFER_SIZE)
                       ((nextTexIdx m1 + 1) mod BUFFER_SIZE) m1 in
  match pendingUpload m2 with
  | Some _ => report PendingUploadNotFinished m2
  | None => m2
  end.

(** Step 2 of [animate], entered after step 1. *)
Definition animate_advance (m : State) : State :=
  if exceeds_one (t m) then
    let (m1, r) := queueGet KAnimate (rotate m) in
    match r with
    | Some it => animate_resume it (receive KAnimate it m1)
    | None => m1
    end
  else animate_finish m.

(** [animate()], run as an animation-frame callback or called at the end of
    [fillBuffer]. *)
Definition animate (m : State) : State :=
  animate_advance (animate_upload m).

(** Body of the loop of [fillBuffer] once iteration [i] has its item. *)
Definition fill_slot (i : Z) (it : Msg.Item) (m : State) : State :=
  uploadTextureComplete (Msg.slotIdx it) (receive (KFill i) it m).

(** The loop of [fillBuffer] from iteration [i], with [remaining] iterations
    to go ([remaining = BUFFER_SIZE - i]); after the last one [animate()] is
    called. *)
Fixpoint fillBuffer_from (remaining : nat) (i : Z) (m : State) : State :=
  match remaining with
  | O => animate m
  | S remaining' =>
      let (m1, r) := queueGet (KFill i) m in
      match r with
      | Some it => fillBuffer_from remaining' (i + 1) (fill_slot i it m1)
      | None => m1
      end
  end.

Definition fillBuffer (m : State) : State :=
  fillBuffer_from (Z.to_nat BUFFER_SIZE) 0 m.

(** A waiter woken by [queuePut] resumes with the item. *)
Definition resume (k : Cont) (it : Msg.Item) (m : State) : State :=
  match k with
  | KFill i => fillBuffer_from (Z.to_nat (BUFFER_SIZE - (i + 1))) (i + 1) (fill_slot i it m)
  | KAnimate => animate_resume it (receive KAnimate it m)
  end.

(** [worker.onmessage] *)
Definition onmessage (msg : Msg.FromWorker) (m : State) : State :=
  match msg with
  | Msg.Ready =>
      fillBuffer (postMessage Msg.StartGenerating (set_isReady true m))
  | Msg.Image it =>
      let (m1, woken) := queuePut it m in
      match woken with
      | Some (k, nextItem) => resume k nextItem m1
      | None => m1
      end
  | Msg.Error => report Alert (report WorkerError m)
  end.

End WithConstants.

End App.

(** ** The two scripts together *)

Module Pipeline.

Record State := mkState { main : App.State; worker : Worker.State }.

Definition initial : State := mkState App.initial Worker.initial.

(** One task of one of the two event loops. *)
Inductive Event :=
| InitSettles (ok : bool)      (* the worker's [init()] finishes or fails *)
| Generated (throws : bool)    (* a pending [generateImage()] settles *)
| ToMain                       (* the page handles the oldest message of the worker *)
| ToWorker                     (* the worker handles the oldest message of the page *)
| Frame.                       (* the browser runs the animation-frame callback *)

Section WithConstants.

Variable BUFFER_SIZE : Z.
Variable g_tex_H : Z.
Variable steps : Z.

(** An event that is not enabled leaves the state as it is. *)
Definition step (s : State) (e : Event) : State :=
  let m := main s in
  let w := worker s in
  match e with
  | InitSettles ok =>
      if Worker.initRunning w then mkState m (Worker.init ok w) else s
  | Generated throws =>
      match Worker.generating w with
      | O => s
      | S _ => mkState m (Worker.continuousGenerate BUFFER_SIZE throws w)
      end
  | ToMain =>
      match Worker.toMain w with
      | [] => s
      | msg :: rest =>
          mkState (App.onmessage BUFFER_SIZE g_tex_H steps msg m) (Worker.set_toMain rest w)
      end
  | ToWorker =>
      match App.toWorker m with
      | [] => s
      | msg :: rest =>
          mkState (App.set_toWorker rest m) (Worker.onmessage BUFFER_SIZE msg w)
      end
  | Frame =>
      if App.rafScheduled m
      then mkState (App.animate BUFFER_SIZE g_tex_H steps (App.set_rafScheduled false m)) w
      else s
  end.

Definition exec (tr : list Event) (s : State) : State := fold_left step tr s.

Definition run (tr : list Event) : State := exec tr initial.

End WithConstants.

End Pipeline.

(** ** Observations used in the statements *)

Module Obs.

(** [chunks] cut the rows [a], ..., [b - 1] into consecutive non-empty
    pieces, each given by its first row and its height. *)
Fixpoint covers (a b : Z) (chunks : list (Z * Z)) : Prop :=
  match chunks with
  | [] => a = b
  | (y, h) :: rest => y = a /\ 1 <= h /\ covers (a + h) b rest
  end.

Fixpoint total (chunks : list (Z * Z)) : Z :=
  match chunks with
  | [] => 0
  | (_, h) :: rest => h + total rest
  end.

(** The upload call that moves a chunk into ring slot [slot]. *)
Definition chunkCall (slot : Z) (c : Z * Z) : App.GLCall :=
  App.UploadChunk slot slot (fst c) (snd c).

(** Consecutive calls of [processProgressiveUpload], the clock standing at
    the given values. *)
Definition advances (g_tex_H steps : Z) (clock : list Q) (m : App.State) : App.State :=
  fold_left (fun m x => App.processProgressiveUpload g_tex_H steps (App.set_t x m)) clock m.

(** [n] animation frames in a row. *)
Definition ticks (BUFFER_SIZE g_tex_H steps : Z) (n : nat) (m : App.State) : App.State :=
  Nat.iter n (App.animate BUFFER_SIZE g_tex_H steps) m.

(** What [k] animation frames without a rotation leave of an upload into
    [slot] that started at row 0: the chunks moved so far, at most one per
    frame, cut the rows below [r], and the upload is pending at row [r],
    which is at least [k], or, with every row moved, cleared. *)
Definition uploading (g_tex_H slot data : Z) (g0 : list App.GLCall) (k : nat)
    (m : App.State) : Prop :=
  exists chunks r,
    App.glCalls m = g0 ++ map (chunkCall slot) chunks /\
    covers 0 r chunks /\
    App.len chunks <= Z.of_nat k /\
    ((App.pendingUpload m = Some (App.mkPending slot slot data r) /\
      Z.of_nat k <= r < g_tex_H) \/
     (App.pendingUpload m = None /\ r = g_tex_H)).

Definition is_space (msg : Msg.ToWorker) : bool :=
  match msg with Msg.QueueHasSpace => true | Msg.StartGenerating => false end.

(** Number of 'queue_has_space' messages in a list of messages. *)
Definition notifications (l : list Msg.ToWorker) : Z := App.len (filter is_space l).

(** Number of 'start_generating' messages in a list of messages. *)
Definition starts (l : list Msg.ToWorker) : Z :=
  App.len (filter (fun msg => negb (is_space msg)) l).

(** Messages of the worker that carry an image, in order. *)
Fixpoint images (q : list Msg.FromWorker) : list Msg.Item :=
  match q with
  | [] => []
  | Msg.Image it :: rest => it :: images rest
  | _ :: rest => images rest
  end.

(** Frames the worker has posted and the page has not finished with: on
    their way, queued, or being uploaded.  A frame the worker holds back
    while it waits for a credit has not been posted and is not counted. *)
Definition framesInFlight (s : Pipeline.State) : Z :=
  App.len (images (Worker.toMain (Pipeline.worker s)))
  + App.len (App.imageQueue (Pipeline.main s))
  + match App.pendingUpload (Pipeline.main s) with Some _ => 1 | None => 0 end.

(** Calls of [queueGet] that have neither received an item nor wait for
    one. *)
Definition owed (m : App.State) : Z :=
  App.getCalls m - App.len (App.received m) - App.len (App.queueWaiters m).

End Obs.

(** ** The invariant of the two scripts running together *)

Module Inv.

Import Pipeline.

Definition is_space (msg : Msg.ToWorker) : Prop := msg = Msg.QueueHasSpace.
Definition not_ready (msg : Msg.FromWorker) : Prop := msg <> Msg.Ready.

(** Nothing has happened yet on the worker's side ... *)
Definition idle_worker (w : Worker.State) : Prop :=
  Worker.generating w = 0%nat /\ Worker.grants w = 0%nat /\
  Worker.queueSpaceAvailable w = 0 /\ Worker.queueSpaceWaiters w = [] /\
  Worker.posted w = [] /\ Worker.produced w = 0 /\ Worker.slotIdx w = 0.

(** ... and on the page's side. *)
Definition idle_main (m : App.State) : Prop :=
  App.isReady m = false /\ App.rafScheduled m = false /\
  App.imageQueue m = [] /\ App.queueWaiters m = [] /\ App.received m = [] /\
  App.toWorker m = [] /\ App.posts m = [] /\
  App.currTexIdx m = 0 /\ App.nextTexIdx m = 1 /\ App.t m = 0%Q /\
  App.pendingUpload m = None.

Section WithRing.

Variable N : Z.

(** The [i]-th frame the worker generates. *)
Definition frame_of (i : Z) : Msg.Item := Msg.mkItem (i mod N) i.

Fixpoint frames (a : Z) (n : nat) : list Msg.Item :=
  match n with
  | O => []
  | S n' => frame_of a :: frames (a + 1) n'
  end.

(** The images posted, then the one held back for lack of a credit, are the
    frames generated so far, in order. *)
Definition producer (w : Worker.State) : Prop :=
  Worker.posted w = frames 0 (length (Worker.posted w)) /\
  Worker.queueSpaceWaiters w =
    frames (App.len (Worker.posted w)) (length (Worker.queueSpaceWaiters w)) /\
  Worker.produced w = App.len (Worker.posted w) + App.len (Worker.queueSpaceWaiters w) /\
  Worker.slotIdx w = Worker.produced w mod N.

(** Received, queued and travelling images make up the images posted. *)
Definition fifo (s : State) : Prop :=
  map App.item (App.received (main s)) ++ App.imageQueue (main s)
    ++ Obs.images (Worker.toMain (worker s))
  = Worker.posted (worker s).

(** Who received the [j]-th item, and where the ring indices stood. *)
Definition receipt_at (j : Z) (rc : App.Receipt) : Prop :=
  if j <? N
  then App.by_cont rc = App.KFill j /\ App.at_curr rc = 0 /\ App.at_next rc = 1
  else App.by_cont rc = App.KAnimate /\
       App.at_curr rc = (j - N + 1) mod N /\ App.at_next rc = (j - N + 2) mod N.

Definition receipts (rs : list App.Receipt) : Prop :=
  forall j rc, nth_error rs j = Some rc -> receipt_at (Z.of_nat j) rc.

(** Where the consumer stands once the page has seen 'ready'. *)
Inductive consumer (m : App.State) : Prop :=
| Filling (i : Z) :
    0 <= i < N ->
    App.queueWaiters m = [App.KFill i] -> App.rafScheduled m = false ->
    App.len (App.received m) = i ->
    App.currTexIdx m = 0 -> App.nextTexIdx m = 1 ->
    App.imageQueue m = [] -> App.t m = 0%Q -> App.pendingUpload m = None ->
    consumer m
| Running (r : Z) :
    0 <= r ->
    App.queueWaiters m = [] -> App.rafScheduled m = true ->
    App.len (App.received m) = N + r ->
    App.currTexIdx m = r mod N -> App.nextTexIdx m = (r + 1) mod N ->
    consumer m
| Awaiting (r : Z) :
    0 <= r ->
    App.queueWaiters m = [App.KAnimate] -> App.rafScheduled m = false ->
    App.imageQueue m = [] ->
    App.len (App.received m) = N + r ->
    App.currTexIdx m = (r + 1) mod N -> App.nextTexIdx m = (r + 2) mod N ->
    consumer m.

Inductive phase (s : State) : Prop :=
| Boot :
    idle_main (main s) -> idle_worker (worker s) ->
    Worker.initRunning (worker s) = true -> Worker.isInitialized (worker s) = false ->
    Worker.toMain (worker s) = [] ->
    phase s
| InitFailed :
    idle_main (main s) -> idle_worker (worker s) ->
    Worker.initRunning (worker s) = false -> Worker.isInitialized (worker s) = false ->
    Worker.toMain (worker s) = [Msg.Error] \/ Worker.toMain (worker s) = [] ->
    phase s
| ReadySent :
    idle_main (main s) -> idle_worker (worker s) ->
    Worker.initRunning (worker s) = false -> Worker.isInitialized (worker s) = true ->
    Worker.toMain (worker s) = [Msg.Ready] ->
    phase s
| StartSent :
    idle_worker (worker s) ->
    Worker.initRunning (worker s) = false -> Worker.isInitialized (worker s) = true ->
    Worker.toMain (worker s) = [] ->
    App.isReady (main s) = true -> consumer (main s) -> App.received (main s) = [] ->
    App.toWorker (main s) = [Msg.StartGenerating] ->
    App.posts (main s) = [Msg.StartGenerating] ->
    phase s
| Started :
    Worker.grants (worker s) = 1%nat ->
    Worker.initRunning (worker s) = false -> Worker.isInitialized (worker s) = true ->
    App.isReady (main s) = true ->
    (Worker.generating (worker s) + length (Worker.queueSpaceWaiters (worker s)) = 1)%nat ->
    Forall not_ready (Worker.toMain (worker s)) ->
    Forall is_space (App.toWorker (main s)) ->
    (exists l, App.posts (main s) = Msg.StartGenerating :: l /\ Forall is_space l) ->
    Worker.queueSpaceAvailable (worker s) + App.len (App.toWorker (main s))
      + App.len (Worker.posted (worker s))
    = N + (App.len (App.posts (main s)) - 1) ->
    consumer (main s) ->
    phase s.

Definition holds (s : State) : Prop :=
  producer (worker s) /\ fifo s /\ receipts (App.received (main s)) /\ phase s.

End WithRing.

End Inv.

(** ** Runs with the constants of app.js *)

Module Scenario.

Import Pipeline.

Definition BUFFER_SIZE : Z := 3.
Definition g_tex_H : Z := 128 * 4.
Definition steps : Z := 10.

Definition run (tr : list Event) : State := Pipeline.run BUFFER_SIZE g_tex_H steps tr.

(** The worker initialises, the page answers 'ready' with 'start_generating'
    and begins to fill, the worker starts its loop. *)
Definition boot : list Event := [InitSettles true; ToMain; ToWorker].

(** A frame is generated and posted, the page handles it, the worker handles
    the page's answer. *)
Definition one_frame : list Event := [Generated false; ToMain; ToWorker].

(** The ring is filled and the animation has started. *)
Definition filled : list Event := boot ++ one_frame ++ one_frame ++ one_frame.

(** A fourth frame arrives while the animation runs. *)
Definition fourth_queued : list Event := filled ++ one_frame.

(** ... and is taken from the queue at the first rotation. *)
Definition first_rotation : list Event := fourth_queued ++ repeat Frame 11.

(** Its upload is one animation frame from complete. *)
Definition upload_nearly_done : list Event := first_rotation ++ repeat Frame 8.

(** After the fill, a generation fails and the page handles the 'error'. *)
Definition error_reported : list Event := filled ++ [Generated true; ToMain].

End Scenario.


(** ** Pixel buffers: the two conversion loops *)

(** The worker turns the RGB values of a generated image into an RGBA byte
    buffer (the loop at the end of [generateImage]); the page turns the
    buffer back into RGB bytes ([convertRGBAtoRGB]).  Typed arrays are lists
    of integers here.  A read past the end gives [undefined] ([None]), a
    write past the end is ignored, and a store converts its value as the
    element type prescribes. *)

Module Pixels.

(** [a[i]] *)
Definition read (a : list Z) (i : nat) : option Z := nth_error a i.

(** [a[i] = v], the value already converted. *)
Fixpoint write (a : list Z) (i : nat) (v : Z) : list Z :=
  match a, i with
  | [], _ => []
  | _ :: rest, O => v :: rest
  | x :: rest, S i' => x :: write rest i' v
  end.

(** Conversion of a stored value in a [Uint8Array]: integers wrap modulo
    256, [undefined] becomes 0. *)
Definition toUint8 (v : option Z) : Z :=
  match v with Some x => x mod 256 | None => 0 end.

(** Conversion of a stored value in a [Uint8ClampedArray]: integers are
    clamped to 0..255, [undefined] becomes 0. *)
Definition toUint8Clamp (v : option Z) : Z :=
  match v with Some x => Z.max 0 (Z.min 255 x) | None => 0 end.

(** Body of the loop of [generateImage] that fills [rgbaData] from
    [data]. *)
Definition packPixel (data : list Z) (rgbaData : list Z) (i : nat) : list Z :=
  let a0 := write rgbaData (i * 4) (toUint8Clamp (read data (i * 3))) in
  let a1 := write a0 (i * 4 + 1) (toUint8Clamp (read data (i * 3 + 1))) in
  let a2 := write a1 (i * 4 + 2) (toUint8Clamp (read data (i * 3 + 2))) in
  write a2 (i * 4 + 3) (toUint8Clamp (Some 255)).

(** The loop itself, on [new Uint8ClampedArray(pixels * 4)], with
    [pixels = HG * HP * WG * WP]. *)
Definition packRGBA (pixels : nat) (data : list Z) : list Z :=
  fold_left (packPixel data) (seq 0 pixels) (repeat 0 (pixels * 4)).

(** Body of the loop of [convertRGBAtoRGB]. *)
Definition convertPixel (rgbaData : list Z) (rgbData : list Z) (i : nat) : list Z :=
  let a0 := write rgbData (i * 3) (toUint8 (read rgbaData (i * 4))) in
  let a1 := write a0 (i * 3 + 1) (toUint8 (read rgbaData (i * 4 + 1))) in
  write a1 (i * 3 + 2) (toUint8 (read rgbaData (i * 4 + 2))).

(** [convertRGBAtoRGB(rgbaData)], on [new Uint8Array(pixels * 3)], with
    [pixels = g_tex_W * g_tex_H]. *)
Definition convertRGBAtoRGB (pixels : nat) (rgbaData : list Z) : list Z :=
  fold_left (convertPixel rgbaData) (seq 0 pixels) (repeat 0 (pixels * 3)).

(** [uploadTextureChunkWithPBO]: the bytes
    [rgbData.subarray(startByte, startByte + chunkBytes)] that a chunk moves,
    as first byte and end. *)
Definition chunkRange (g_tex_W yOffset chunkHeight : Z) : Z * Z :=
  let rowBytes := g_tex_W * 3 in
  let startByte := yOffset * rowBytes in
  let chunkBytes := chunkHeight * rowBytes in
  (startByte, startByte + chunkBytes).

(** [initWebGL]: size of each pixel buffer object. *)
Definition pboSize (g_tex_W g_tex_H : Z) : Z := g_tex_W * g_tex_H * 3.

End Pixels.

(** ** Layout: the grid of tiles *)

(** The later version of the page chooses the grid of tiles from the size
    of the window.  Window and element sizes are integers, and the tile
    size is a power of two, so the quotients [width / WP] and
    [availableHeight / HP] are exact in binary64 and their [Math.floor] is
    [Z.div]. *)

Module Layout.

Definition HP : Z := 128.
Definition WP : Z := 128.
Definition MAX_HG : Z := 4.
Definition MAX_WG : Z := 6.

(** [document.querySelector(sel)?.offsetHeight || d]: [None] when no element
    matches. *)
Definition offsetHeightOr (h : option Z) (d : Z) : Z :=
  match h with
  | Some x => if x =? 0 then d else x
  | None => d
  end.

Definition uiHeight (header stats controls : option Z) : Z :=
  offsetHeightOr header 50 + offsetHeightOr stats 40 + offsetHeightOr controls 100 + 20.

(** [calculateGridSize()], as the pair [(HG, WG)]. *)
Definition calculateGridSize (innerWidth innerHeight : Z) (header stats controls : option Z)
    : Z * Z :=
  let width := innerWidth in
  let height := innerHeight in
  let availableHeight := height - uiHeight header stats controls in
  let maxTilesW := width / WP in
  let maxTilesH := availableHeight / HP in
  let newWG := Z.min maxTilesW MAX_WG in
  let newHG := Z.min maxTilesH MAX_HG in
  (Z.max 1 newHG, Z.max 1 newWG).

End Layout.

(** ** Texture uploads that stay inside the ring, the texture and the buffer *)

Module Safe.

Section WithConstants.

Variable BUFFER_SIZE : Z.
Variable g_tex_H : Z.

(** The arguments of an upload call name a texture and a buffer of the
    ring ([textures] and [pbos] have [BUFFER_SIZE] entries each), and the
    rows of a chunk lie inside the texture. *)
Definition inBounds (c : App.GLCall) : Prop :=
  match c with
  | App.UploadComplete slot => 0 <= slot < BUFFER_SIZE
  | App.UploadChunk texIdx pbo yOffset chunkHeight =>
      0 <= texIdx < BUFFER_SIZE /\ pbo = texIdx /\
      0 <= yOffset /\ 1 <= chunkHeight /\ yOffset + chunkHeight <= g_tex_H
  end.

(** A pending upload belongs to the item received last, has rows left to
    move, and the animation is running. *)
Definition in_progress (m : App.State) (pu : App.PendingUpload) : Prop :=
  App.rafScheduled m = true /\
  App.pboIdx pu = App.slotIdx pu /\
  0 <= App.rowsUploaded pu < g_tex_H /\
  App.slotIdx pu = (App.len (App.received m) - 1) mod BUFFER_SIZE.

Definition holds (m : App.State) : Prop :=
  Forall inBounds (App.glCalls m) /\
  forall pu, App.pendingUpload m = Some pu -> in_progress m pu.

End WithConstants.

End Safe.

(** * Properties *)

(** ** Arithmetic of the upload scheduler *)

Section Rounding.

(** Rounding keeps the sign: the rounded mantissa is never negative. *)
Lemma round_aux_sign s mz ez lz :
  let v := Binary64.toQ (binary_round_aux Binary64.prec Binary64.emax s mz ez lz) in
  if s then (v <= 0)%Q else (0 <= v)%Q.
Proof.
  cbv zeta. unfold binary_round_aux.
  destruct (shr_fexp _ _ mz ez lz) as [mrs' e'].
  destruct (shr_fexp _ _ _ e' loc_Exact) as [mrs'' e''].
  destruct (shr_m mrs'') as [|m|m].
  - destruct s; cbn; apply Qle_refl.
  - destruct (e'' <=? _).
    + pose proof (Z.pow_pos_nonneg 2 e'') as P.
      destruct s, e'' as [|e|e]; unfold Binary64.toQ, Qle, cond_Zopp;
        cbn [Qnum Qden inject_Z]; try lia.
    + destruct s; unfold Binary64.toQ, Qle, cond_Zopp, Binary64.emax;
        cbn [Qnum Qden inject_Z]; lia.
  - destruct s; cbn; apply Qle_refl.
Qed.

Lemma round_nonneg x : (0 <= x)%Q -> (0 <= Binary64.round x)%Q.
Proof.
  intro P. unfold Binary64.round, Binary64.nearest.
  destruct x as [n d]. unfold Qle in P. cbn [Qnum Qden] in *.
  destruct n as [|n|n]; [apply Qle_refl | | lia].
  unfold Binary64.quotient.
  destruct (SFdiv_core_binary _ _ _ _ _ _) as [[mz ez] lz].
  exact (round_aux_sign false mz ez lz).
Qed.

Lemma round_nonpos x : (x <= 0)%Q -> (Binary64.round x <= 0)%Q.
Proof.
  intro P. unfold Binary64.round, Binary64.nearest.
  destruct x as [n d]. unfold Qle in P. cbn [Qnum Qden] in *.
  destruct n as [|n|n]; [apply Qle_refl | lia |].
  unfold Binary64.quotient.
  destruct (SFdiv_core_binary _ _ _ _ _ _) as [[mz ez] lz].
  exact (round_aux_sign true mz ez lz).
Qed.

(** For every [steps] from 1 to 200, [dt], the clock values of a whole
    cross-fade and the quotients [(1.0 - t) / dt] are the ones the
    Standard Library's binary64 operations give. *)
Example round_agrees_with_SpecFloat :
  forallb Binary64.agrees (map Z.of_nat (seq 1 200)) = true.
Proof. vm_compute. reflexivity. Qed.

End Rounding.

Section Scheduler.

Variable steps : Z.
Hypothesis Hsteps : 1 <= steps.

Lemma dt_nonneg : (0 <= App.dt steps)%Q.
Proof.
  unfold App.dt, Binary64.ofZ. apply round_nonneg.
  unfold Qdiv. rewrite Qmult_1_l. apply Qinv_le_0_compat.
  apply round_nonneg. unfold Qle, inject_Z. cbn [Qnum Qden]. lia.
Qed.

Lemma exceeds_one_true x : App.exceeds_one x = true <-> (1 < x)%Q.
Proof.
  unfold App.exceeds_one. rewrite negb_true_iff.
  split; intro E.
  - apply Qnot_le_lt. intro L. apply Qle_bool_iff in L. congruence.
  - destruct (Qle_bool x 1) eqn:B; [|reflexivity].
    apply Qle_bool_iff in B. exfalso. apply (Qlt_not_le _ _ E B).
Qed.

Lemma framesLeft_pos x : 1 <= App.framesLeft steps x.
Proof. unfold App.framesLeft. lia. Qed.

(** Once the clock has passed 1, a single frame is left: [1.0 - t] is
    negative, and so is its quotient by [dt]. *)
Lemma framesLeft_late x : App.exceeds_one x = true -> App.framesLeft steps x = 1.
Proof.
  intro E. apply exceeds_one_true in E. unfold App.framesLeft.
  assert (D : (Binary64.round (1 - x) <= 0)%Q).
  { apply round_nonpos. destruct x as [a b].
    unfold Qlt, Qle, Qminus, Qplus, Qopp in *. cbn [Qnum Qden] in *. lia. }
  assert (R : (Binary64.round (Binary64.round (1 - x) / App.dt steps) <= 0)%Q).
  { apply round_nonpos. unfold Qdiv.
    rewrite <- (Qmult_0_l (/ App.dt steps)).
    apply Qmult_le_compat_r; [exact D|].
    apply Qinv_le_0_compat. apply dt_nonneg. }
  apply Qfloor_resp_le in R. change (Qfloor 0) with 0 in R. lia.
Qed.

Lemma rowsToUpload_bounds rowsLeft x :
  1 <= rowsLeft ->
  1 <= App.rowsToUpload steps rowsLeft x <= rowsLeft.
Proof.
  intro L. unfold App.rowsToUpload.
  pose proof (framesLeft_pos x) as F.
  assert (0 <= rowsLeft / App.framesLeft steps x) by (apply Z.div_pos; lia).
  lia.
Qed.

Lemma rowsToUpload_late rowsLeft x :
  App.exceeds_one x = true -> App.rowsToUpload steps rowsLeft x = rowsLeft.
Proof.
  intro E. unfold App.rowsToUpload. rewrite (framesLeft_late x E).
  rewrite Z.div_1_r. lia.
Qed.

End Scheduler.

(** ** One call of [processProgressiveUpload] *)

Section UploadStep.

Variables H steps : Z.

Lemma upload_idle m :
  App.pendingUpload m = None -> App.processProgressiveUpload H steps m = m.
Proof. unfold App.processProgressiveUpload. intros ->. reflexivity. Qed.

Lemma upload_active m pu :
  App.pendingUpload m = Some pu ->
  let n := App.rowsToUpload steps (H - App.rowsUploaded pu) (App.t m) in
  App.processProgressiveUpload H steps m =
  App.set_pendingUpload
    (if H <=? App.rowsUploaded pu + n then None
     else Some (App.mkPending (App.slotIdx pu) (App.pboIdx pu) (App.rgbData pu)
                              (App.rowsUploaded pu + n)))
    (App.glCall (App.UploadChunk (App.slotIdx pu) (App.pboIdx pu) (App.rowsUploaded pu) n) m).
Proof.
  intros E n. unfold App.processProgressiveUpload. rewrite E. cbn [App.rowsUploaded].
  fold n. unfold App.uploadTextureChunkWithPBO. destruct (H <=? _); reflexivity.
Qed.

Lemma advances_idle clock : forall m,
  App.pendingUpload m = None ->
  App.pendingUpload (Obs.advances H steps clock m) = None.
Proof.
  induction clock as [|x clock IH]; intros m E; [exact E|].
  cbn [Obs.advances fold_left]. apply IH.
  rewrite upload_idle; exact E.
Qed.

Lemma advances_clear clock : forall m pu,
  App.pendingUpload m = Some pu ->
  H - App.rowsUploaded pu <= App.len clock ->
  App.rowsUploaded pu < H ->
  App.pendingUpload (Obs.advances H steps clock m) = None.
Proof.
  induction clock as [|x clock IH]; intros m pu E L B.
  - unfold App.len in L. simpl in L. lia.
  - cbn [Obs.advances fold_left].
    assert (E' : App.pendingUpload (App.set_t x m) = Some pu) by exact E.
    rewrite (upload_active _ _ E').
    pose proof (rowsToUpload_bounds steps (H - App.rowsUploaded pu) (App.t (App.set_t x m))
                  ltac:(lia)) as R.
    destruct (H <=? _) eqn:C.
    + apply advances_idle. reflexivity.
    + apply Z.leb_gt in C. eapply IH; [reflexivity| |]; cbn [App.rowsUploaded].
      * unfold App.len in *. cbn [length] in L. lia.
      * lia.
Qed.

Lemma animate_upload_t m : App.t (App.animate_upload H steps m) = App.t m.
Proof.
  unfold App.animate_upload. destruct (App.pendingUpload m) eqn:E; [|reflexivity].
  rewrite (upload_active m p E). reflexivity.
Qed.

(** Step 1 of [animate] touches the pending upload and the list of GL
    calls, nothing else. *)
Lemma animate_upload_effect m :
  exists p g,
    App.animate_upload H steps m =
    App.mkState (App.isReady m) (App.currTexIdx m) (App.nextTexIdx m) (App.t m)
                (App.imageQueue m) (App.queueWaiters m) p (App.rafScheduled m)
                (App.toWorker m) (App.posts m) (App.console m) g (App.received m)
                (App.getCalls m).
Proof.
  unfold App.animate_upload, App.processProgressiveUpload.
  destruct (App.pendingUpload m) as [pu|] eqn:E.
  - destruct (H <=? _); eexists; eexists; reflexivity.
  - exists None, (App.glCalls m). destruct m. cbn in *. subst. reflexivity.
Qed.

End UploadStep.

(** C10.  A call of [processProgressiveUpload] on a pending upload that has
    [rowsUploaded < g_tex_H] moves [n] rows with [1 <= n <= g_tex_H - rowsUploaded],
    starting at row [rowsUploaded]; [rowsUploaded] grows by [n] and the upload
    is cleared exactly when it reaches [g_tex_H], which it never exceeds.
    Whatever the clock shows at each call, [g_tex_H] calls clear an upload
    (uploads start at row 0, so [rowsUploaded] is never negative).  A call
    without a pending upload returns the state unchanged. *)
Theorem upload_advance_progress (H steps : Z) (m : App.State) (pu : App.PendingUpload)
    (clock : list Q) :
  1 <= steps ->
  App.pendingUpload m = Some pu ->
  App.rowsUploaded pu < H ->
  let m' := App.processProgressiveUpload H steps m in
  let n := App.rowsToUpload steps (H - App.rowsUploaded pu) (App.t m) in
  1 <= n <= H - App.rowsUploaded pu /\
  App.glCalls m' =
    App.glCalls m ++ [App.UploadChunk (App.slotIdx pu) (App.pboIdx pu) (App.rowsUploaded pu) n] /\
  App.pendingUpload m' =
    (if H <=? App.rowsUploaded pu + n then None
     else Some (App.mkPending (App.slotIdx pu) (App.pboIdx pu) (App.rgbData pu)
                              (App.rowsUploaded pu + n))) /\
  (0 <= App.rowsUploaded pu -> H <= App.len clock ->
   App.pendingUpload (Obs.advances H steps clock m) = None) /\
  (forall m0, App.pendingUpload m0 = None -> App.processProgressiveUpload H steps m0 = m0).
Proof.
  intros Hs E B m' n.
  assert (R : 1 <= n <= H - App.rowsUploaded pu)
    by (apply rowsToUpload_bounds; lia).
  subst m'. rewrite (upload_active H steps m pu E). fold n.
  repeat split; try lia.
  - intros L0 L. apply (advances_clear H steps clock m pu E); lia.
  - apply upload_idle.
Qed.

Lemma upload_advance_progress_witness :
  let m := App.set_pendingUpload (Some (App.mkPending 0 0 3 0)) (App.set_t (1 # 10) App.initial) in
  App.pendingUpload (App.processProgressiveUpload 128 10 m) = Some (App.mkPending 0 0 3 15) /\
  App.pendingUpload (Obs.advances 128 10 (repeat (1 # 2)%Q 128) m) = None.
Proof.
  intro m.
  pose proof (upload_advance_progress 128 10 m (App.mkPending 0 0 3 0) (repeat (1 # 2)%Q 128)
                ltac:(lia) eq_refl ltac:(simpl; lia)) as W.
  cbv zeta in W. destruct W as (_ & _ & P & A & _).
  split; [exact P | apply A; [simpl; lia | vm_compute; discriminate]].
Defined.

(** ** An upload from its creation to the next rotation *)

Section Coverage.

Variables N H steps : Z.

Lemma covers_snoc chunks : forall a b h,
  Obs.covers a b chunks -> 1 <= h -> Obs.covers a (b + h) (chunks ++ [(b, h)]).
Proof.
  induction chunks as [|[y k] rest IH]; intros a b h C L; cbn in *.
  - subst. auto.
  - destruct C as (-> & K & C). repeat split; auto.
Qed.

Lemma covers_total chunks : forall a b,
  Obs.covers a b chunks -> Obs.total chunks = b - a.
Proof.
  induction chunks as [|[y k] rest IH]; intros a b C; cbn in *.
  - lia.
  - destruct C as (-> & K & C). rewrite (IH _ _ C). lia.
Qed.

(** A frame that does not rotate moves one more chunk. *)
Lemma uploading_step slot data g0 k m :
  App.exceeds_one (App.t m) = false ->
  Obs.uploading H slot data g0 k m ->
  Obs.uploading H slot data g0 (S k) (App.animate N H steps m).
Proof.
  intros E (chunks & r & G & C & L & P).
  unfold App.animate, App.animate_advance.
  rewrite animate_upload_t, E.
  unfold App.animate_finish, App.animate_upload.
  destruct P as [(P & R) | (P & R)]; rewrite P.
  - rewrite (upload_active H steps m _ P).
    cbn [App.rowsUploaded App.slotIdx App.pboIdx App.rgbData].
    set (n := App.rowsToUpload steps (H - r) (App.t m)).
    assert (B : 1 <= n <= H - r) by (apply rowsToUpload_bounds; lia).
    exists (chunks ++ [(r, n)]), (r + n). cbn.
    rewrite G, map_app, <- app_assoc. repeat split.
    + apply covers_snoc; [assumption | lia].
    + unfold App.len in *. rewrite length_app. cbn. lia.
    + destruct (H <=? r + n) eqn:D; [right | left].
      * apply Z.leb_le in D. split; [reflexivity | lia].
      * apply Z.leb_gt in D. split; [reflexivity | lia].
  - exists chunks, r. cbn. repeat split; auto. lia.
Qed.

Lemma uploading_ticks slot data g0 m0 k :
  Obs.uploading H slot data g0 0 m0 ->
  (forall j, (j < k)%nat -> App.exceeds_one (App.t (Obs.ticks N H steps j m0)) = false) ->
  Obs.uploading H slot data g0 k (Obs.ticks N H steps k m0).
Proof.
  intros U. induction k as [|k IH]; intro Q; [exact U|].
  cbn [Obs.ticks Nat.iter]. apply uploading_step.
  - apply (Q k). lia.
  - apply IH. intros j J. apply Q. lia.
Qed.

End Coverage.

(** C3.  Take any [g_tex_H >= 1] and [steps >= 1], a state [m0] with an
    upload at row 0, and [k] animation frames from [m0] none of which finds
    the clock past 1.  Each of these frames moves one chunk of at least one
    row: the chunks cut the rows moved so far into consecutive pieces
    without gap or overlap, and with [k >= g_tex_H] the upload is complete
    whatever the clock does.  If the next frame is the one that finds the
    clock past 1, then after its step 1 the upload is cleared and the
    chunks cut the rows [0 .. g_tex_H - 1]: their heights sum to
    [g_tex_H]. *)
Theorem progressive_upload_covers (N H steps slot data : Z) (m0 : App.State) (k : nat) :
  1 <= H -> 1 <= steps ->
  App.pendingUpload m0 = Some (App.mkPending slot slot data 0) ->
  let at_tick j := Obs.ticks N H steps j m0 in
  (forall j, (j < k)%nat -> App.exceeds_one (App.t (at_tick j)) = false) ->
  (exists chunks r,
     App.glCalls (at_tick k) = App.glCalls m0 ++ map (Obs.chunkCall slot) chunks /\
     Obs.covers 0 r chunks /\ Obs.total chunks = r /\
     App.len chunks <= Z.of_nat k /\
     ((App.pendingUpload (at_tick k) = Some (App.mkPending slot slot data r) /\
       Z.of_nat k <= r < H) \/
      (App.pendingUpload (at_tick k) = None /\ r = H))) /\
  (H <= Z.of_nat k -> App.pendingUpload (at_tick k) = None) /\
  (App.exceeds_one (App.t (at_tick k)) = true ->
   exists chunks,
     let done := App.animate_upload H steps (at_tick k) in
     App.pendingUpload done = None /\
     App.glCalls done = App.glCalls m0 ++ map (Obs.chunkCall slot) chunks /\
     Obs.covers 0 H chunks /\
     Obs.total chunks = H /\
     App.len chunks <= Z.of_nat k + 1).
Proof.
  intros HH Hs P0 at_tick Q.
  assert (U0 : Obs.uploading H slot data (App.glCalls m0) 0 m0).
  { exists [], 0. cbn. rewrite app_nil_r.
    repeat split; try (unfold App.len; cbn; lia).
    left. split; [exact P0 | lia]. }
  pose proof (uploading_ticks N H steps slot data _ m0 k U0 Q) as U.
  fold (at_tick k) in U.
  destruct U as (chunks & r & G & C & L & P).
  split; [|split].
  - exists chunks, r. repeat split; try assumption.
    rewrite (covers_total _ _ _ C). lia.
  - intro K. destruct P as [(P & R) | (P & R)]; [lia | exact P].
  - intro X. unfold App.animate_upload.
    destruct P as [(P & R) | (P & R)]; rewrite P.
    + exists (chunks ++ [(r, H - r)]).
      rewrite (upload_active H steps _ _ P).
      cbn [App.rowsUploaded App.slotIdx App.pboIdx App.rgbData].
      rewrite (rowsToUpload_late steps Hs _ _ X).
      replace (H <=? r + (H - r)) with true by (symmetry; apply Z.leb_le; lia).
      assert (C' : Obs.covers 0 H (chunks ++ [(r, H - r)])).
      { replace H with (r + (H - r)) at 1 by lia. apply covers_snoc; [assumption | lia]. }
      cbn. rewrite G, map_app, <- app_assoc. repeat split; auto.
      * rewrite (covers_total _ _ _ C'). lia.
      * unfold App.len in *. rewrite length_app. cbn. lia.
    + subst r. exists chunks. cbn. repeat split; auto.
      * rewrite (covers_total _ _ _ C). lia.
      * lia.
Qed.

Lemma progressive_upload_covers_witness :
  let m0 := App.animate_resume 10 (Msg.mkItem 0 3) App.initial in
  App.exceeds_one (App.t (Obs.ticks 3 512 10 10 m0)) = true /\
  exists chunks,
    App.pendingUpload (App.animate_upload 512 10 (Obs.ticks 3 512 10 10 m0)) = None /\
    Obs.covers 0 512 chunks /\ Obs.total chunks = 512.
Proof.
  intro m0.
  assert (X : App.exceeds_one (App.t (Obs.ticks 3 512 10 10 m0)) = true)
    by (vm_compute; reflexivity).
  split; [exact X|].
  assert (Q : forall j, (j < 10)%nat ->
                App.exceeds_one (App.t (Obs.ticks 3 512 10 j m0)) = false).
  { intros j J.
    do 10 (destruct j as [|j]; [vm_compute; reflexivity|]). lia. }
  destruct (progressive_upload_covers 3 512 10 0 3 m0 10 ltac:(lia) ltac:(lia) eq_refl Q)
    as (_ & _ & D).
  destruct (D X) as (chunks & D1 & _ & D2 & D3 & _).
  exists chunks. split; [exact D1 | split; [exact D2 | exact D3]].
Defined.

(** With the constants of app.js (512 rows, ten steps) the nine chunks of
    an upload are 57, 57, 67, 67, 53, 53, 53, 53 and 52 rows high: the
    binary64 quotient [(1.0 - t) / dt] is just below 7 at the third frame,
    which leaves 6 frames there. *)
Example upload_512_rows_in_ten_steps :
  let m0 := App.animate_resume 10 (Msg.mkItem 0 3) App.initial in
  App.pendingUpload (Obs.ticks 3 512 10 8 m0) <> None /\
  App.pendingUpload (Obs.ticks 3 512 10 9 m0) = None /\
  App.glCalls (Obs.ticks 3 512 10 9 m0)
  = map (Obs.chunkCall 0)
      [(0, 57); (57, 57); (114, 67); (181, 67); (248, 53); (301, 53); (354, 53);
       (407, 53); (460, 52)].
Proof.
  cbv zeta. split; [vm_compute; discriminate|]. split; vm_compute; reflexivity.
Qed.

(** Scenario C of the specification: 128 rows, ten steps.  The upload is
    still pending after eight frames and cleared by the ninth, all 128 rows
    moved. *)
Example upload_128_rows_in_ten_steps :
  let m0 := App.animate_resume 10 (Msg.mkItem 0 3) App.initial in
  App.pendingUpload (Obs.ticks 3 128 10 8 m0) <> None /\
  App.pendingUpload (Obs.ticks 3 128 10 9 m0) = None /\
  exists chunks,
    App.glCalls (Obs.ticks 3 128 10 9 m0) = map (Obs.chunkCall 0) chunks /\
    Obs.covers 0 128 chunks /\ Obs.total chunks = 128.
Proof.
  cbv zeta. split; [vm_compute; discriminate|]. split; [vm_compute; reflexivity|].
  exists [(0, 15); (15, 15); (30, 17); (47, 17); (64, 13); (77, 13); (90, 13); (103, 13);
          (116, 12)].
  split; [vm_compute; reflexivity|]. split; [cbn; repeat split; lia | reflexivity].
Qed.

(** The clock is a binary64 number.  Ten additions of [1.0 / 10] leave it
    just below 1, and the eleventh frame after a rotation is the first to
    find it past 1; nine additions of [1.0 / 9] give 1.0000000000000002, so
    with nine steps the rotation comes at the ninth frame, not the
    tenth. *)
Example clock_of_nine_steps :
  let m10 := App.animate_resume 10 (Msg.mkItem 0 3) App.initial in
  let m9 := App.animate_resume 9 (Msg.mkItem 0 3) App.initial in
  App.t (Obs.ticks 3 512 10 9 m10) = (9007199254740991 # 9007199254740992)%Q /\
  App.exceeds_one (App.t (Obs.ticks 3 512 10 9 m10)) = false /\
  App.exceeds_one (App.t (Obs.ticks 3 512 10 10 m10)) = true /\
  App.t (Obs.ticks 3 512 9 8 m9) = (4503599627370497 # 4503599627370496)%Q /\
  App.exceeds_one (App.t (Obs.ticks 3 512 9 7 m9)) = false /\
  App.exceeds_one (App.t (Obs.ticks 3 512 9 8 m9)) = true.
Proof. cbv zeta. repeat split; vm_compute; reflexivity. Qed.

(** ** The rotation block of [animate] *)

(** C8.  When step 2 of [animate] is entered with the clock past 1 and an
    upload still pending, the rotation block writes 'Pending upload not
    finished!' to the error console, before it calls [queueGet]. *)
Theorem rotation_reports_pending_upload (N steps : Z) (m : App.State)
    (pu : App.PendingUpload) :
  App.exceeds_one (App.t m) = true ->
  App.pendingUpload m = Some pu ->
  App.console (App.rotate N m) = App.console m ++ [App.PendingUploadNotFinished] /\
  App.getCalls (App.rotate N m) = App.getCalls m /\
  App.console (App.animate_advance N steps m)
    = App.console m ++ [App.PendingUploadNotFinished] /\
  App.getCalls (App.animate_advance N steps m) = App.getCalls m + 1.
Proof.
  intros T P. unfold App.animate_advance, App.rotate. rewrite T. cbn. rewrite P. cbn.
  repeat split.
  - unfold App.queueGet. cbn.
    destruct (App.imageQueue m); cbn; [reflexivity|].
    destruct (_ <? _); reflexivity.
  - unfold App.queueGet. cbn.
    destruct (App.imageQueue m); cbn; [reflexivity|].
    destruct (_ <? _); reflexivity.
Qed.

Lemma rotation_reports_pending_upload_witness :
  let m := App.set_pendingUpload (Some (App.mkPending 0 0 3 100))
             (App.set_t (11 # 10) App.initial) in
  App.console (App.animate_advance 3 10 m) = [App.PendingUploadNotFinished].
Proof.
  intro m.
  exact (proj1 (proj2 (proj2
    (rotation_reports_pending_upload 3 10 m (App.mkPending 0 0 3 100) eq_refl eq_refl)))).
Defined.

(** With no upload pending the block reports nothing. *)
Lemma rotation_silent_when_idle (N : Z) (m : App.State) :
  App.pendingUpload m = None -> App.console (App.rotate N m) = App.console m.
Proof. intro P. unfold App.rotate. cbn. rewrite P. reflexivity. Qed.

(** Inside [animate] the report cannot fire: step 1 runs first, and with
    the clock past 1 it moves every remaining row. *)
Lemma animate_reports_nothing (N H steps : Z) (m : App.State) :
  1 <= steps ->
  App.console (App.animate N H steps m) = App.console m.
Proof.
  intro Hs. unfold App.animate, App.animate_advance.
  rewrite animate_upload_t.
  destruct (App.exceeds_one (App.t m)) eqn:T.
  - assert (P : App.pendingUpload (App.animate_upload H steps m) = None
                /\ App.console (App.animate_upload H steps m) = App.console m).
    { unfold App.animate_upload. destruct (App.pendingUpload m) as [pu|] eqn:E; [|auto].
      rewrite (upload_active H steps m pu E), (rowsToUpload_late steps Hs _ _ T).
      replace (H <=? _) with true by (symmetry; apply Z.leb_le; lia).
      split; reflexivity. }
    destruct P as (P & C). unfold App.rotate. cbn. rewrite P.
    unfold App.queueGet. cbn.
    destruct (App.imageQueue (App.animate_upload H steps m)); cbn; [exact C|].
    destruct (_ <? _); exact C.
  - destruct (animate_upload_effect H steps m) as (p & g & ->). reflexivity.
Qed.

(** ** The console along a run *)

Section NoReport.

Variables N H steps : Z.
Hypothesis Hsteps : 1 <= steps.

Lemma queueGet_console k m : App.console (fst (App.queueGet N k m)) = App.console m.
Proof.
  unfold App.queueGet. cbn. destruct (App.imageQueue m); cbn; [reflexivity|].
  destruct (_ <? _); reflexivity.
Qed.

Lemma queuePut_console it m : App.console (fst (App.queuePut N it m)) = App.console m.
Proof.
  unfold App.queuePut. cbn. destruct (App.queueWaiters m); cbn; destruct (_ <? _); reflexivity.
Qed.

Lemma fillBuffer_from_console remaining : forall i m,
  App.console (App.fillBuffer_from N H steps remaining i m) = App.console m.
Proof.
  induction remaining as [|remaining IH]; intros i m; cbn [App.fillBuffer_from].
  - apply animate_reports_nothing. exact Hsteps.
  - pose proof (queueGet_console (App.KFill i) m) as G.
    destruct (App.queueGet N (App.KFill i) m) as [m1 [it|]]; cbn [fst] in G.
    + rewrite IH. exact G.
    + exact G.
Qed.

Lemma resume_console k it m : App.console (App.resume N H steps k it m) = App.console m.
Proof.
  destruct k; cbn [App.resume].
  - rewrite fillBuffer_from_console. reflexivity.
  - reflexivity.
Qed.

(** In a run the console holds reported worker errors and nothing else:
    the check of the rotation block never fires. *)
Lemma runs_never_report_pending tr :
  ~ In App.PendingUploadNotFinished
       (App.console (Pipeline.main (Pipeline.run N H steps tr))).
Proof.
  unfold Pipeline.run, Pipeline.exec.
  assert (G : forall s,
             ~ In App.PendingUploadNotFinished (App.console (Pipeline.main s)) ->
             ~ In App.PendingUploadNotFinished
                  (App.console (Pipeline.main (fold_left (Pipeline.step N H steps) tr s)))).
  { induction tr as [|e tr IH]; intros s Q; [exact Q|].
    cbn [fold_left]. apply IH. clear IH.
    destruct s as [m w]. destruct e; cbn [Pipeline.step Pipeline.main Pipeline.worker] in *.
    - destruct (Worker.initRunning w); exact Q.
    - destruct (Worker.generating w); exact Q.
    - destruct (Worker.toMain w) as [|[| it |] rest]; cbn [Pipeline.main]; try exact Q.
      + unfold App.onmessage, App.fillBuffer. rewrite fillBuffer_from_console. exact Q.
      + unfold App.onmessage.
        pose proof (queuePut_console it m) as P.
        destruct (App.queuePut N it m) as [m1 [[k nextItem]|]]; cbn [fst] in P.
        * rewrite resume_console, P. exact Q.
        * rewrite P. exact Q.
      + cbn. rewrite <- app_assoc. intro I. apply in_app_or in I.
        destruct I as [I | [I | [I | []]]]; [exact (Q I) | discriminate | discriminate].
    - destruct (App.toWorker m); exact Q.
    - destruct (App.rafScheduled m); cbn [Pipeline.main]; [|exact Q].
      rewrite animate_reports_nothing by exact Hsteps. exact Q. }
  apply G. cbn. auto.
Qed.

End NoReport.

(** ** Where 'queue_has_space' is sent *)

Section Notices.

Variables N H steps : Z.

Lemma posts_queueGet k m :
  App.posts (fst (App.queueGet N k m))
  = App.posts m ++ match App.imageQueue m with
                   | [] => []
                   | _ :: rest => if App.len rest <? N then [Msg.QueueHasSpace] else []
                   end.
Proof.
  unfold App.queueGet, App.MAX_QUEUE_SIZE. cbn.
  destruct (App.imageQueue m); cbn; [rewrite app_nil_r; reflexivity|].
  destruct (_ <? _); cbn; rewrite ?app_nil_r; reflexivity.
Qed.

Lemma queue_queueGet_waiting k m :
  App.imageQueue m = [] -> App.imageQueue (fst (App.queueGet N k m)) = []
                           /\ snd (App.queueGet N k m) = None.
Proof. intro Q. unfold App.queueGet. cbn. rewrite Q. cbn. split; [exact Q | reflexivity]. Qed.

(** [animate] sends what its [queueGet] sends, and calls it only to
    rotate. *)
Lemma posts_animate m :
  App.posts (App.animate N H steps m)
  = App.posts m ++ (if App.exceeds_one (App.t m)
                    then match App.imageQueue m with
                         | [] => []
                         | _ :: rest => if App.len rest <? N then [Msg.QueueHasSpace] else []
                         end
                    else []).
Proof.
  unfold App.animate.
  destruct (animate_upload_effect H steps m) as (p & g & ->).
  unfold App.animate_advance. cbn [App.t].
  destruct (App.exceeds_one (App.t m)); [|cbn; rewrite app_nil_r; reflexivity].
  set (r := App.rotate N _).
  assert (R : App.posts r = App.posts m /\ App.imageQueue r = App.imageQueue m).
  { unfold r, App.rotate. cbn. destruct p; split; reflexivity. }
  destruct R as (R1 & R2).
  pose proof (posts_queueGet App.KAnimate r) as G. rewrite R1, R2 in G.
  destruct (App.queueGet N App.KAnimate r) as [m1 [it|]]; cbn [fst] in G; exact G.
Qed.

(** On an empty queue the loop of [fillBuffer] sends nothing: it waits, or,
    its iterations done, calls [animate], which then has nothing to take. *)
Lemma posts_fillBuffer_from_empty remaining i m :
  App.imageQueue m = [] ->
  App.posts (App.fillBuffer_from N H steps remaining i m) = App.posts m.
Proof.
  intro Q. destruct remaining as [|remaining]; cbn [App.fillBuffer_from].
  - rewrite posts_animate, Q. destruct (App.exceeds_one _); apply app_nil_r.
  - pose proof (posts_queueGet (App.KFill i) m) as G.
    destruct (queue_queueGet_waiting (App.KFill i) m Q) as (_ & W).
    destruct (App.queueGet N (App.KFill i) m) as [m1 r]; cbn [fst snd] in *.
    subst r. rewrite G, Q. apply app_nil_r.
Qed.

Lemma posts_handover it k ws m :
  App.queueWaiters m = k :: ws ->
  App.posts (fst (App.queuePut N it m))
  = App.posts m ++ (if App.len (tl (App.imageQueue m ++ [it])) <? N
                    then [Msg.QueueHasSpace] else []).
Proof.
  intro W. unfold App.queuePut, App.MAX_QUEUE_SIZE. cbn. rewrite W. cbn.
  destruct (_ <? _); cbn; rewrite ?app_nil_r; reflexivity.
Qed.

Lemma posts_image_to_waiter it k ws m :
  App.imageQueue m = [] -> App.queueWaiters m = k :: ws ->
  App.posts (App.onmessage N H steps (Msg.Image it) m)
  = App.posts m ++ (if App.len (@nil Msg.Item) <? N then [Msg.QueueHasSpace] else []).
Proof.
  intros Q W. cbn [App.onmessage].
  pose proof (posts_handover it k ws m W) as P. rewrite Q in P. cbn [app tl] in P.
  assert (E : snd (App.queuePut N it m) = Some (k, it)
              /\ App.imageQueue (fst (App.queuePut N it m)) = []).
  { unfold App.queuePut. cbn. rewrite W, Q. cbn. destruct (_ <? _); split; reflexivity. }
  destruct E as (E1 & E2).
  destruct (App.queuePut N it m) as [m1 woken]; cbn [fst snd] in *. subst woken.
  destruct k as [i|]; cbn [App.resume].
  - rewrite posts_fillBuffer_from_empty; [exact P | exact E2].
  - exact P.
Qed.

End Notices.

(** C2 (amended).  'queue_has_space' is sent when a frame is handed to the
    consumer: [queueGet] sends one after taking an item from the queue, and
    [queuePut] sends one after handing the item to a waiting [queueGet], in
    both cases when the queue is then shorter than [MAX_QUEUE_SIZE]; a
    [queueGet] that has to wait sends none.  No notice is tied to the
    completion of an upload: the upload step, also when it completes an
    upload, the rotation block, the uploads of the fill loop, the end of
    [animate] and the handler of 'error' send nothing; [animate] as a
    whole sends what its one [queueGet] sends, the handler of 'ready' on an
    empty queue sends 'start_generating' and nothing else, and the handler
    of 'image' with a consumer waiting on an empty queue sends the one
    notice of the hand-over. *)
Theorem space_notice_sent_at_handover (N H steps : Z) (k : App.Cont) (it : Msg.Item)
    (m : App.State) :
  let notice (rest : list Msg.Item) :=
    if App.len rest <? N then [Msg.QueueHasSpace] else [] in
  let taken := match App.imageQueue m with [] => [] | _ :: rest => notice rest end in
  App.posts (fst (App.queueGet N k m)) = App.posts m ++ taken /\
  (App.queueWaiters m <> [] ->
   App.posts (fst (App.queuePut N it m))
   = App.posts m ++ notice (tl (App.imageQueue m ++ [it]))) /\
  App.posts (App.processProgressiveUpload H steps m) = App.posts m /\
  App.posts (App.rotate N m) = App.posts m /\
  App.posts (App.animate_finish steps m) = App.posts m /\
  App.posts (App.animate_resume steps it m) = App.posts m /\
  App.posts (App.uploadTextureComplete (Msg.slotIdx it) m) = App.posts m /\
  App.posts (App.animate N H steps m)
  = App.posts m ++ (if App.exceeds_one (App.t m) then taken else []) /\
  (App.imageQueue m = [] ->
   App.posts (App.onmessage N H steps Msg.Ready m) = App.posts m ++ [Msg.StartGenerating]) /\
  (App.imageQueue m = [] -> App.queueWaiters m <> [] ->
   App.posts (App.onmessage N H steps (Msg.Image it) m) = App.posts m ++ notice []) /\
  App.posts (App.onmessage N H steps Msg.Error m) = App.posts m.
Proof.
  cbv zeta. repeat split.
  - apply posts_queueGet.
  - intro W. destruct (App.queueWaiters m) as [|k0 ws] eqn:E; [congruence|].
    apply (posts_handover N it k0 ws m E).
  - unfold App.processProgressiveUpload.
    destruct (App.pendingUpload m); [|reflexivity].
    destruct (_ <=? _); reflexivity.
  - unfold App.rotate. cbn. destruct (App.pendingUpload m); reflexivity.
  - apply posts_animate.
  - intro Q. cbn [App.onmessage]. unfold App.fillBuffer.
    rewrite posts_fillBuffer_from_empty; [reflexivity | exact Q].
  - intros Q W. destruct (App.queueWaiters m) as [|k0 ws] eqn:E; [congruence|].
    apply (posts_image_to_waiter N H steps it k0 ws m Q E).
Qed.

Lemma space_notice_sent_at_handover_witness :
  let m := Pipeline.main (Scenario.run Scenario.boot) in
  App.queueWaiters m = [App.KFill 0] /\
  App.posts (App.onmessage 3 512 10 (Msg.Image (Msg.mkItem 0 0)) m)
  = [Msg.StartGenerating; Msg.QueueHasSpace].
Proof.
  intro m. split; [reflexivity|].
  destruct (space_notice_sent_at_handover 3 512 10 (App.KFill 0) (Msg.mkItem 0 0) m)
    as (_ & _ & _ & _ & _ & _ & _ & _ & _ & I & _).
  apply I; [reflexivity | discriminate].
Defined.

(** C2, as stated, fails on the code.  With the constants of app.js: at the
    first rotation [animate] takes the fourth frame from the queue and
    sends 'queue_has_space' at once, the upload of that frame not yet
    begun.  Nine animation frames later the upload completes, and the
    frame that completes it sends nothing. *)
Lemma space_notice_counterexample :
  let before := Scenario.run (Scenario.fourth_queued ++ repeat Pipeline.Frame 10) in
  let rotated := Scenario.run Scenario.first_rotation in
  let nearly := Scenario.run Scenario.upload_nearly_done in
  let complete := Scenario.run (Scenario.upload_nearly_done ++ [Pipeline.Frame]) in
  App.imageQueue (Pipeline.main before) = [Msg.mkItem 0 3] /\
  App.imageQueue (Pipeline.main rotated) = [] /\
  App.pendingUpload (Pipeline.main rotated) = Some (App.mkPending 0 0 3 0) /\
  App.posts (Pipeline.main rotated)
    = App.posts (Pipeline.main before) ++ [Msg.QueueHasSpace] /\
  App.pendingUpload (Pipeline.main nearly) <> None /\
  App.pendingUpload (Pipeline.main complete) = None /\
  App.posts (Pipeline.main complete) = App.posts (Pipeline.main nearly).
Proof. vm_compute. repeat split; try reflexivity. discriminate. Qed.

(** ** A reported error *)

(** C7 (amended).  The page's handler of 'error' writes the error to the
    console and opens an alert, and changes nothing else: queue, waiters,
    clock, ring indices, pending upload and the outstanding animation frame
    are as before, so the consumer goes on as if nothing had been
    reported.  In the worker, a generation that fails posts 'error' and the
    loop of [continuousGenerate] goes round again, credits and slot counter
    untouched. *)
Theorem error_is_reported_not_terminal (N H steps : Z) (m : App.State) (w : Worker.State) :
  Worker.isInitialized w = true ->
  let m' := App.onmessage N H steps Msg.Error m in
  let w' := Worker.continuousGenerate N true w in
  App.console m' = App.console m ++ [App.WorkerError; App.Alert] /\
  (App.imageQueue m' = App.imageQueue m /\ App.queueWaiters m' = App.queueWaiters m /\
   App.rafScheduled m' = App.rafScheduled m /\ App.getCalls m' = App.getCalls m /\
   App.pendingUpload m' = App.pendingUpload m /\ App.t m' = App.t m /\
   App.currTexIdx m' = App.currTexIdx m /\ App.nextTexIdx m' = App.nextTexIdx m /\
   App.toWorker m' = App.toWorker m /\ App.received m' = App.received m) /\
  (Worker.toMain w' = Worker.toMain w ++ [Msg.Error] /\
   Worker.generating w' = Worker.generating w /\
   Worker.queueSpaceAvailable w' = Worker.queueSpaceAvailable w /\
   Worker.queueSpaceWaiters w' = Worker.queueSpaceWaiters w /\
   Worker.slotIdx w' = Worker.slotIdx w /\ Worker.posted w' = Worker.posted w).
Proof.
  intros I. cbv zeta. split; [|split].
  - cbn. rewrite <- app_assoc. reflexivity.
  - cbn. repeat split; reflexivity.
  - unfold Worker.continuousGenerate, Worker.generateImage. rewrite I. cbn.
    repeat split; reflexivity.
Qed.

Lemma error_is_reported_not_terminal_witness :
  let s := Scenario.run Scenario.filled in
  App.rafScheduled (App.onmessage 3 512 10 Msg.Error (Pipeline.main s)) = true /\
  Worker.generating (Worker.continuousGenerate 3 true (Pipeline.worker s)) = 1%nat.
Proof.
  intro s.
  destruct (error_is_reported_not_terminal 3 512 10 (Pipeline.main s) (Pipeline.worker s)
              eq_refl) as (_ & (_ & _ & R & _) & (_ & G & _)).
  split; [rewrite R | rewrite G]; reflexivity.
Defined.

(** C7, as stated, fails on the code.  With the constants of app.js: after
    the fill a generation fails and the page handles the 'error'.  Eleven
    animation frames later the rotation calls [queueGet] all the same, and
    [animate] waits for a frame; the worker's loop is still running. *)
Lemma error_counterexample :
  let reported := Scenario.run Scenario.error_reported in
  let later := Scenario.run (Scenario.error_reported ++ repeat Pipeline.Frame 11) in
  App.console (Pipeline.main reported) = [App.WorkerError; App.Alert] /\
  App.getCalls (Pipeline.main reported) = 3 /\
  App.getCalls (Pipeline.main later) = 4 /\
  App.queueWaiters (Pipeline.main later) = [App.KAnimate] /\
  Worker.generating (Pipeline.worker later) = 1%nat.
Proof. vm_compute. repeat split; reflexivity. Qed.

(** ** The invariant holds along every run *)

Section Invariant.

Variables N H steps : Z.
Hypothesis HN : 2 <= N.

Lemma frames_snoc n : forall a,
  Inv.frames N a (S n) = Inv.frames N a n ++ [Inv.frame_of N (a + Z.of_nat n)].
Proof.
  induction n as [|n IH]; intro a.
  - cbn. rewrite Z.add_0_r. reflexivity.
  - change (Inv.frames N a (S (S n))) with (Inv.frame_of N a :: Inv.frames N (a + 1) (S n)).
    rewrite IH. cbn [Inv.frames app]. do 2 f_equal. f_equal. f_equal. lia.
Qed.

Lemma images_app q1 q2 : Obs.images (q1 ++ q2) = Obs.images q1 ++ Obs.images q2.
Proof.
  induction q1 as [|[| |] q1 IH]; cbn; rewrite ?IH; reflexivity.
Qed.

Lemma receipts_snoc rs rc :
  Inv.receipts N rs -> Inv.receipt_at N (App.len rs) rc -> Inv.receipts N (rs ++ [rc]).
Proof.
  intros R A j x E.
  destruct (Nat.lt_ge_cases j (length rs)) as [L | L].
  - rewrite nth_error_app1 in E by assumption. apply R. exact E.
  - rewrite nth_error_app2 in E by assumption.
    destruct (j - length rs)%nat eqn:D; cbn in E.
    + injection E as <-. assert (J : j = length rs) by lia. subst j. exact A.
    + destruct n; discriminate.
Qed.

Lemma receipts_nil : Inv.receipts N [].
Proof. intros [|j] rc E; discriminate. Qed.

Lemma initial_holds : Inv.holds N Pipeline.initial.
Proof.
  repeat split; try reflexivity.
  - apply receipts_nil.
  - apply Inv.Boot; repeat split; reflexivity.
Qed.

Ltac open_state s :=
  let m := fresh "m" in let w := fresh "w" in
  destruct s as [m w]; destruct m, w;
  cbn [Pipeline.main Pipeline.worker] in *.

Ltac open_idle :=
  repeat match goal with
  | I : Inv.idle_main _ |- _ => unfold Inv.idle_main in I; cbn in I; decompose [and] I; clear I
  | I : Inv.idle_worker _ |- _ => unfold Inv.idle_worker in I; cbn in I; decompose [and] I; clear I
  end.

Ltac open_inv :=
  unfold Inv.holds, Inv.producer, Inv.fifo in *;
  cbn [Pipeline.main Pipeline.worker] in *; cbn in *.

Ltac arith :=
  unfold App.len in *;
  repeat first [ rewrite length_app in * | rewrite length_map in * | progress cbn [length] in * ];
  lia.

Ltac spaces :=
  repeat (apply Forall_app; split); try assumption; repeat constructor.

Ltac open_phase Ph :=
  destruct Ph as [Im Iw Er Ei Et | Im Iw Er Ei Et | Im Iw Er Ei Et
                 | Iw Er Ei Et Ey Co Re Tw Po | Gr Er Ei Ey Ge Nr Sp Po Ac Co];
  cbn in *; open_idle; try congruence.

Ltac keep_consumer Co :=
  destruct Co; [eapply Inv.Filling | eapply Inv.Running | eapply Inv.Awaiting];
  cbn in *; eauto.

Lemma len_nil A : App.len (@nil A) = 0.
Proof. reflexivity. Qed.

Lemma ring_nonempty : (0 <? N) = true.
Proof. apply Z.ltb_lt. lia. Qed.

Lemma init_holds s ok :
  Inv.holds N s -> Inv.holds N (Pipeline.step N H steps s (Pipeline.InitSettles ok)).
Proof.
  intros Hs. unfold Pipeline.step.
  destruct (Worker.initRunning (Pipeline.worker s)) eqn:E; [|exact Hs].
  destruct Hs as (P & F & R & Ph).
  open_state s. cbn in E. subst.
  open_phase Ph. subst.
  destruct ok; cbn.
  - repeat split; try reflexivity; try assumption.
    apply Inv.ReadySent; cbn; repeat split; reflexivity.
  - repeat split; try reflexivity; try assumption.
    apply Inv.InitFailed; cbn; repeat split; auto.
Qed.

Lemma generated_holds s throws :
  Inv.holds N s -> Inv.holds N (Pipeline.step N H steps s (Pipeline.Generated throws)).
Proof.
  intros Hs. unfold Pipeline.step.
  destruct (Worker.generating (Pipeline.worker s)) eqn:E; [exact Hs|].
  destruct Hs as (P & F & R & Ph).
  open_state s. cbn in E. subst.
  open_phase Ph. subst.
  destruct queueSpaceWaiters; cbn in *; [|lia].
  unfold Worker.continuousGenerate, Worker.generateImage. cbn.
  destruct throws; cbn.
  - open_inv. rewrite images_app. cbn. rewrite app_nil_r.
    repeat split; try tauto.
    apply Inv.Started; cbn; auto.
    apply Forall_app. split; [assumption | repeat constructor; discriminate].
  - unfold Worker.waitToSend. cbn.
    destruct P as (P1 & P2 & P3 & P4). cbn in *.
    assert (NewFrame : Msg.mkItem slotIdx produced = Inv.frame_of N (App.len posted)).
    { unfold Inv.frame_of. rewrite Z.add_0_r in P3. rewrite P4, P3. reflexivity. }
    destruct (0 <? queueSpaceAvailable) eqn:C; cbn.
    + (* a credit is there: the image is posted *)
      open_inv. rewrite images_app. cbn. rewrite !app_assoc, NewFrame.
      split; [repeat split|split; [|split]].
      * rewrite length_app. cbn. rewrite Nat.add_1_r, frames_snoc, <- P1. reflexivity.
      * arith.
      * rewrite P4. rewrite Z.add_mod_idemp_l by lia. reflexivity.
      * rewrite <- F at 2. rewrite <- !app_assoc. reflexivity.
      * assumption.
      * apply Inv.Started; cbn; auto.
        -- apply Forall_app. split; [assumption | repeat constructor; discriminate].
        -- arith.
    + (* no credit: the run suspends with its result *)
      open_inv. rewrite NewFrame.
      split; [repeat split|split; [|split]]; auto.
      * arith.
      * rewrite P4. rewrite Z.add_mod_idemp_l by lia. reflexivity.
      * apply Inv.Started; cbn; auto. lia.
Qed.

Lemma to_worker_holds s :
  Inv.holds N s -> Inv.holds N (Pipeline.step N H steps s Pipeline.ToWorker).
Proof.
  intros Hs. unfold Pipeline.step.
  destruct (App.toWorker (Pipeline.main s)) as [|msg rest] eqn:E; [exact Hs|].
  destruct Hs as (P & F & R & Ph).
  open_state s. cbn in E. subst.
  open_phase Ph.
  - (* 'start_generating' arrives *)
    injection Tw as -> ->. subst. open_inv.
    split; [repeat split|split; [|split]]; auto.
    apply Inv.Started; cbn; auto.
    + exists []. split; [reflexivity | constructor].
    + arith.
    + keep_consumer Co.
  - (* 'queue_has_space' arrives *)
    inversion Sp as [|? ? Q1 Q2]; subst. unfold Inv.is_space in Q1. subst msg.
    destruct P as (P1 & P2 & P3 & P4). cbn in *.
    destruct queueSpaceWaiters as [|held others]; cbn.
    + open_inv. split; [repeat split|split; [|split]]; auto.
      apply Inv.Started; cbn; auto; [arith | keep_consumer Co].
    + destruct others; [|cbn in *; lia].
      cbn in P2. injection P2 as P2.
      open_inv. rewrite images_app. cbn. rewrite !app_assoc, P2.
      split; [repeat split|split; [|split]]; auto.
      * rewrite length_app. cbn. rewrite Nat.add_1_r, frames_snoc, <- P1. reflexivity.
      * arith.
      * rewrite <- F at 2. rewrite <- !app_assoc. reflexivity.
      * apply Inv.Started; cbn; auto.
        -- lia.
        -- apply Forall_app. split; [assumption | repeat constructor; discriminate].
        -- arith.
        -- keep_consumer Co.
Qed.

Lemma to_main_holds s :
  Inv.holds N s -> Inv.holds N (Pipeline.step N H steps s Pipeline.ToMain).
Proof.
  intros Hs. unfold Pipeline.step.
  destruct (Worker.toMain (Pipeline.worker s)) as [|msg rest] eqn:E; [exact Hs|].
  destruct Hs as (P & F & R & Ph).
  open_state s. cbn in E. subst.
  open_phase Ph.
  - (* the failure of [init] is reported *)
    destruct Et as [Et | Et]; [|discriminate]. injection Et as -> ->. subst.
    open_inv. split; [repeat split|split; [|split]]; auto.
    apply Inv.InitFailed; cbn; repeat split; auto.
  - (* 'ready' arrives *)
    injection Et as -> ->. subst. unfold App.onmessage, App.fillBuffer.
    destruct (Z.to_nat N) eqn:EN; [lia|].
    open_inv. split; [repeat split|split; [|split]]; auto.
    apply Inv.StartSent; cbn; repeat split; auto.
    apply Inv.Filling with (i := 0); cbn; auto. lia.
  - subst. inversion Nr as [|? ? NR1 NR2]; subst.
    destruct msg as [| it |]; [exfalso; apply NR1; reflexivity | |].
    + (* an image arrives *)
      unfold App.onmessage, App.queuePut, App.MAX_QUEUE_SIZE. 
      destruct Co as [i Bi Wa Ra Le Cu Ne Qu Te Pe | r Br Wa Ra Le Cu Ne | r Br Wa Ra Qu Le Cu Ne];
        cbn in *; subst.
      * (* while filling *)
        cbn. rewrite len_nil, ring_nonempty.
        cbn. destruct (Z.to_nat (N - (App.len received + 1))) eqn:Last; cbn.
        -- (* the ring is full: [animate] starts *)
           open_inv. destruct Po as (l & -> & Fl).
           split; [exact P|split; [|split]].
           ++ rewrite map_app, <- app_assoc. exact F.
           ++ apply receipts_snoc; [exact R|].
              unfold Inv.receipt_at. replace (_ <? N) with true by (symmetry; apply Z.ltb_lt; lia).
              cbn. auto.
           ++ apply Inv.Started; cbn; auto.
              ** spaces.
              ** exists (l ++ [Msg.QueueHasSpace]). split; [reflexivity | spaces].
              ** arith.
              ** apply Inv.Running with (r := 0); cbn; auto; try lia; try arith;
                   rewrite Z.mod_small; lia.
        -- (* the next iteration of the loop waits *)
           open_inv. destruct Po as (l & -> & Fl).
           split; [exact P|split; [|split]].
           ++ rewrite map_app, <- app_assoc. exact F.
           ++ apply receipts_snoc; [exact R|].
              unfold Inv.receipt_at. replace (_ <? N) with true by (symmetry; apply Z.ltb_lt; lia).
              cbn. auto.
           ++ apply Inv.Started; cbn; auto.
              ** spaces.
              ** exists (l ++ [Msg.QueueHasSpace]). split; [reflexivity | spaces].
              ** arith.
              ** apply Inv.Filling with (i := App.len received + 1); cbn; auto; try lia; arith.
      * (* while the animation runs *)
        cbn. destruct (App.len (imageQueue ++ [it]) <? N) eqn:Space; cbn.
        -- open_inv. destruct Po as (l & -> & Fl).
           split; [exact P|split; [|split]]; auto.
           ++ rewrite <- F, <- !app_assoc. reflexivity.
           ++ apply Inv.Started; cbn; auto.
              ** spaces.
              ** exists (l ++ [Msg.QueueHasSpace]). split; [reflexivity | spaces].
              ** arith.
              ** apply Inv.Running with (r := r); cbn; auto.
        -- open_inv.
           split; [exact P|split; [|split]]; auto.
           ++ rewrite <- F, <- !app_assoc. reflexivity.
           ++ apply Inv.Started; cbn; auto.
              apply Inv.Running with (r := r); cbn; auto.
      * (* while [animate] waits for it *)
        cbn. rewrite len_nil, ring_nonempty. cbn.
        open_inv. destruct Po as (l & -> & Fl).
        split; [exact P|split; [|split]].
        -- rewrite map_app, <- app_assoc. exact F.
        -- apply receipts_snoc; [exact R|].
           unfold Inv.receipt_at. replace (_ <? N) with false by (symmetry; apply Z.ltb_ge; lia).
           cbn. rewrite Le. split; [reflexivity | split; f_equal; lia].
        -- apply Inv.Started; cbn; auto.
           ++ spaces.
           ++ exists (l ++ [Msg.QueueHasSpace]). split; [reflexivity | spaces].
           ++ arith.
           ++ apply Inv.Running with (r := r + 1); cbn; auto; try lia; try arith.
              f_equal. lia.
    + (* an error is reported *)
      unfold App.onmessage. open_inv.
      split; [exact P|split; [|split]]; auto.
      apply Inv.Started; cbn; auto.
      keep_consumer Co.
Qed.


Lemma frame_holds s :
  Inv.holds N s -> Inv.holds N (Pipeline.step N H steps s Pipeline.Frame).
Proof.
  intros Hs. unfold Pipeline.step.
  destruct (App.rafScheduled (Pipeline.main s)) eqn:E; [|exact Hs].
  destruct Hs as (P & F & R & Ph).
  unfold App.animate.
  destruct (animate_upload_effect H steps (App.set_rafScheduled false (Pipeline.main s)))
    as (p & g & ->).
  open_state s. cbn in E. subst.
  open_phase Ph.
  - destruct Co; cbn in *; try congruence. subst. arith.
  - destruct Co as [i Bi Wa Ra Le Cu Ne Qu Te Pe | r Br Wa Ra Le Cu Ne | r Br Wa Ra Qu Le Cu Ne];
      cbn in *; try congruence. subst.
    unfold App.animate_advance. cbn.
    destruct (App.exceeds_one t); cbn.
    + (* rotation *)
      unfold App.rotate, App.queueGet, App.MAX_QUEUE_SIZE. cbn.
      destruct imageQueue as [|it q]; destruct p as [pu|]; cbn.
      1, 2: (* nothing queued: [animate] waits *)
        open_inv; (split; [exact P|split; [|split]]; auto);
        apply Inv.Started; cbn; auto;
        apply Inv.Awaiting with (r := r); cbn; auto;
        rewrite Z.add_mod_idemp_l by lia; f_equal; lia.
      1, 2: (* the oldest queued item is taken *)
        destruct (App.len q <? N) eqn:Space; cbn;
        open_inv; destruct Po as (l & -> & Fl);
        (split; [exact P|split; [|split]]);
        [ rewrite map_app, <- app_assoc; exact F
        | apply receipts_snoc; [exact R|];
          unfold Inv.receipt_at;
          replace (_ <? N) with false by (symmetry; apply Z.ltb_ge; lia);
          cbn; rewrite Le, !Z.add_mod_idemp_l by lia;
          split; [reflexivity | split; f_equal; lia]
        | apply Inv.Started; cbn; auto;
          [ spaces
          | exists (l ++ [Msg.QueueHasSpace]); split; [reflexivity | spaces]
          | arith
          | apply Inv.Running with (r := r + 1); cbn; auto; try lia; try arith;
            rewrite Z.add_mod_idemp_l by lia; f_equal; lia ]
        | rewrite map_app, <- app_assoc; exact F
        | apply receipts_snoc; [exact R|];
          unfold Inv.receipt_at;
          replace (_ <? N) with false by (symmetry; apply Z.ltb_ge; lia);
          cbn; rewrite Le, !Z.add_mod_idemp_l by lia;
          split; [reflexivity | split; f_equal; lia]
        | apply Inv.Started; cbn; auto;
          [ exists l; split; [reflexivity | assumption]
          | apply Inv.Running with (r := r + 1); cbn; auto; try lia; try arith;
            rewrite Z.add_mod_idemp_l by lia; f_equal; lia ] ].
    + (* no rotation *)
      open_inv. split; [exact P|split; [|split]]; auto.
      apply Inv.Started; cbn; auto.
      apply Inv.Running with (r := r); cbn; auto.
Qed.

Lemma step_holds s e : Inv.holds N s -> Inv.holds N (Pipeline.step N H steps s e).
Proof.
  destruct e.
  - apply init_holds.
  - apply generated_holds.
  - apply to_main_holds.
  - apply to_worker_holds.
  - apply frame_holds.
Qed.

Lemma run_holds tr : Inv.holds N (Pipeline.run N H steps tr).
Proof.
  unfold Pipeline.run, Pipeline.exec.
  assert (G : forall s, Inv.holds N s -> Inv.holds N (fold_left (Pipeline.step N H steps) tr s)).
  { induction tr as [|e tr IH]; intros s Hs; [exact Hs|].
    cbn. apply IH. apply step_holds. exact Hs. }
  apply G. apply initial_holds.
Qed.


Lemma mod_shift_neq a d : 0 < d < N -> (a + d) mod N <> a mod N.
Proof.
  intros D E.
  assert (X : (a + d - a) mod N = 0).
  { rewrite Zminus_mod, E, Z.sub_diag. apply Z.mod_0_l. lia. }
  replace (a + d - a) with d in X by lia.
  rewrite Z.mod_small in X; lia.
Qed.

Lemma nth_error_frames n : forall a j x,
  nth_error (Inv.frames N a n) j = Some x -> x = Inv.frame_of N (a + Z.of_nat j).
Proof.
  induction n as [|n IH]; intros a j x E.
  - destruct j; discriminate.
  - destruct j as [|j]; cbn in E.
    + injection E as <-. f_equal. cbn. lia.
    + apply IH in E. rewrite E. f_equal. lia.
Qed.

Lemma received_frame tr j rc :
  nth_error (App.received (Pipeline.main (Pipeline.run N H steps tr))) j = Some rc ->
  App.item rc = Inv.frame_of N (Z.of_nat j).
Proof.
  intros E.
  destruct (run_holds tr) as ((P1 & _) & F & _).
  unfold Inv.fifo in F.
  assert (E1 : nth_error (Worker.posted (Pipeline.worker (Pipeline.run N H steps tr))) j
               = Some (App.item rc)).
  { rewrite <- F. rewrite nth_error_app1.
    - rewrite nth_error_map, E. reflexivity.
    - rewrite length_map. apply nth_error_Some. congruence. }
  rewrite P1 in E1. apply nth_error_frames in E1. exact E1.
Qed.

End Invariant.

(** ** Every call of [queueGet] is served or waiting *)

Section Served.

Variables N H steps : Z.

Lemma owed_queueGet k m :
  Obs.owed (fst (App.queueGet N k m))
  = Obs.owed m + match snd (App.queueGet N k m) with Some _ => 1 | None => 0 end.
Proof.
  unfold App.queueGet, Obs.owed. cbn.
  destruct (App.imageQueue m); cbn.
  - unfold App.len. rewrite length_app. cbn [length]. lia.
  - destruct (_ <? _); cbn; lia.
Qed.

Lemma owed_receive k it m : Obs.owed (App.receive k it m) = Obs.owed m - 1.
Proof. unfold Obs.owed, App.len. cbn. rewrite length_app. cbn [length]. lia. Qed.

Lemma owed_animate m : Obs.owed (App.animate N H steps m) = Obs.owed m.
Proof.
  unfold App.animate.
  destruct (animate_upload_effect H steps m) as (p & g & ->).
  unfold App.animate_advance. cbn [App.t].
  destruct (App.exceeds_one (App.t m)); [|reflexivity].
  set (r := App.rotate N _).
  assert (R : Obs.owed r = Obs.owed m).
  { unfold r, App.rotate. cbn. destruct p; reflexivity. }
  pose proof (owed_queueGet App.KAnimate r) as G.
  destruct (App.queueGet N App.KAnimate r) as [m1 [it|]]; cbn [fst snd] in G.
  - change (Obs.owed (App.animate_resume steps it (App.receive App.KAnimate it m1)))
      with (Obs.owed (App.receive App.KAnimate it m1)).
    rewrite owed_receive. lia.
  - lia.
Qed.

Lemma owed_fillBuffer_from remaining : forall i m,
  Obs.owed (App.fillBuffer_from N H steps remaining i m) = Obs.owed m.
Proof.
  induction remaining as [|remaining IH]; intros i m; cbn [App.fillBuffer_from].
  - apply owed_animate.
  - pose proof (owed_queueGet (App.KFill i) m) as G.
    destruct (App.queueGet N (App.KFill i) m) as [m1 [it|]]; cbn [fst snd] in G.
    + rewrite IH.
      change (Obs.owed (App.fill_slot i it m1)) with (Obs.owed (App.receive (App.KFill i) it m1)).
      rewrite owed_receive. lia.
    + lia.
Qed.

Lemma owed_resume k it m : Obs.owed (App.resume N H steps k it m) = Obs.owed m - 1.
Proof.
  destruct k as [i|]; cbn [App.resume].
  - rewrite owed_fillBuffer_from.
    change (Obs.owed (App.fill_slot i it m)) with (Obs.owed (App.receive (App.KFill i) it m)).
    apply owed_receive.
  - change (Obs.owed (App.animate_resume steps it (App.receive App.KAnimate it m)))
      with (Obs.owed (App.receive App.KAnimate it m)).
    apply owed_receive.
Qed.

Lemma owed_queuePut it m :
  Obs.owed (fst (App.queuePut N it m))
  = Obs.owed m + match snd (App.queuePut N it m) with Some _ => 1 | None => 0 end.
Proof.
  unfold App.queuePut, Obs.owed. cbn.
  destruct (App.queueWaiters m) eqn:W; cbn; destruct (_ <? _); cbn;
    rewrite ?W; unfold App.len; cbn [length]; lia.
Qed.

Lemma owed_onmessage msg m : Obs.owed (App.onmessage N H steps msg m) = Obs.owed m.
Proof.
  destruct msg as [| it |]; cbn [App.onmessage].
  - unfold App.fillBuffer. rewrite owed_fillBuffer_from. reflexivity.
  - pose proof (owed_queuePut it m) as P.
    destruct (App.queuePut N it m) as [m1 [[k nextItem]|]]; cbn [fst snd] in P.
    + rewrite owed_resume. lia.
    + lia.
  - reflexivity.
Qed.

Lemma owed_step s e :
  Obs.owed (Pipeline.main (Pipeline.step N H steps s e)) = Obs.owed (Pipeline.main s).
Proof.
  destruct s as [m w]. destruct e; cbn [Pipeline.step Pipeline.main Pipeline.worker].
  - destruct (Worker.initRunning w); reflexivity.
  - destruct (Worker.generating w); reflexivity.
  - destruct (Worker.toMain w); cbn [Pipeline.main]; [reflexivity|]. apply owed_onmessage.
  - destruct (App.toWorker m); reflexivity.
  - destruct (App.rafScheduled m); cbn [Pipeline.main]; [|reflexivity].
    rewrite owed_animate. reflexivity.
Qed.

(** In a run every call of [queueGet] has received its item or waits for
    it. *)
Lemma run_served tr : Obs.owed (Pipeline.main (Pipeline.run N H steps tr)) = 0.
Proof.
  unfold Pipeline.run, Pipeline.exec.
  assert (G : forall s, Obs.owed (Pipeline.main (fold_left (Pipeline.step N H steps) tr s))
                        = Obs.owed (Pipeline.main s)).
  { induction tr as [|e tr IH]; intro s; [reflexivity|].
    cbn [fold_left]. rewrite IH. apply owed_step. }
  rewrite G. reflexivity.
Qed.

End Served.

(** ** Consequences for every run *)

Lemma all_spaces (l : list Msg.ToWorker) :
  Forall Inv.is_space l -> Obs.notifications l = App.len l /\ Obs.starts l = 0.
Proof.
  unfold Obs.notifications, Obs.starts, App.len.
  induction 1 as [|msg l S _ IH]; [split; reflexivity|].
  unfold Inv.is_space in S. subst msg. cbn [filter Obs.is_space negb length].
  destruct IH as (IH1 & IH2). split; [lia | exact IH2].
Qed.

(** Bookkeeping of the credits.  For every ring size [N >= 2] and every
    run: 'start_generating' is sent and handled at most once, and handling
    it sets the credit count to [N]; at every state, the credit count plus
    the 'queue_has_space' messages on their way to the worker plus the
    images the worker has posted equals [N] times the 'start_generating'
    messages handled plus the 'queue_has_space' messages the page has
    sent. *)
Theorem credit_accounting (N H steps : Z) (tr : list Pipeline.Event) :
  2 <= N ->
  let s := Pipeline.run N H steps tr in
  let m := Pipeline.main s in
  let w := Pipeline.worker s in
  (Worker.grants w <= 1)%nat /\
  Obs.starts (App.posts m) <= 1 /\
  Worker.queueSpaceAvailable w + Obs.notifications (App.toWorker m)
    + App.len (Worker.posted w)
  = N * Z.of_nat (Worker.grants w) + Obs.notifications (App.posts m) /\
  (forall w0, Worker.queueSpaceAvailable (Worker.onmessage N Msg.StartGenerating w0) = N).
Proof.
  intros HN. cbv zeta.
  destruct (run_holds N H steps HN tr) as (_ & _ & _ & Ph).
  set (s := Pipeline.run N H steps tr) in *.
  assert (Main : (Worker.grants (Pipeline.worker s) <= 1)%nat /\
                 Obs.starts (App.posts (Pipeline.main s)) <= 1 /\
                 Worker.queueSpaceAvailable (Pipeline.worker s)
                   + Obs.notifications (App.toWorker (Pipeline.main s))
                   + App.len (Worker.posted (Pipeline.worker s))
                 = N * Z.of_nat (Worker.grants (Pipeline.worker s))
                   + Obs.notifications (App.posts (Pipeline.main s))).
  { destruct Ph as [Im Iw Er Ei Et | Im Iw Er Ei Et | Im Iw Er Ei Et
                   | Iw Er Ei Et Ey Co Re Tw Po | Gr Er Ei Ey Ge Nr Sp Po Ac Co].
    1, 2, 3:
      destruct Im as (_ & _ & _ & _ & _ & Tw & Po & _);
      destruct Iw as (_ & Gr & Cr & _ & Pd & _);
      rewrite Tw, Po, Gr, Cr, Pd;
      unfold Obs.notifications, Obs.starts, App.len;
      cbn [filter Obs.is_space negb length]; repeat split; lia.
    - destruct Iw as (_ & Gr & Cr & _ & Pd & _).
      rewrite Tw, Po, Gr, Cr, Pd.
      unfold Obs.notifications, Obs.starts, App.len.
      cbn [filter Obs.is_space negb length]. repeat split; lia.
    - destruct Po as (l & Po & Fl).
      destruct (all_spaces _ Sp) as (S1 & _).
      destruct (all_spaces _ Fl) as (L1 & L2).
      rewrite Gr, S1, Po. rewrite Po in Ac.
      unfold Obs.notifications, Obs.starts in *.
      cbn [filter Obs.is_space negb]. unfold App.len in *. cbn [length] in *.
      repeat split; lia. }
  destruct Main as (A & B & C). repeat split; assumption.
Qed.

Lemma credit_accounting_witness :
  let s := Scenario.run Scenario.fourth_queued in
  Worker.queueSpaceAvailable (Pipeline.worker s)
    + Obs.notifications (App.toWorker (Pipeline.main s))
    + App.len (Worker.posted (Pipeline.worker s))
  = 3 * Z.of_nat (Worker.grants (Pipeline.worker s))
    + Obs.notifications (App.posts (Pipeline.main s)).
Proof.
  intro s.
  exact (proj1 (proj2 (proj2
    (credit_accounting 3 512 10 Scenario.fourth_queued ltac:(lia))))).
Defined.

(** C1.  The credit invariant fails on the code.  With the constants of
    app.js: the ring has been filled and the fourth frame has arrived
    while the animation runs and nobody waits.  [queuePut] has sent
    'queue_has_space' right after the enqueue, although no item was
    consumed: the frame sits in the queue and its credit is already back.
    The worker holds 3 credits, no message is on its way in either
    direction, one frame is in flight: 3 + 1 is not [BUFFER_SIZE]. *)
Lemma credit_invariant_counterexample :
  let s := Scenario.run Scenario.fourth_queued in
  Worker.queueSpaceAvailable (Pipeline.worker s) = 3 /\
  App.imageQueue (Pipeline.main s) = [Msg.mkItem 0 3] /\
  App.toWorker (Pipeline.main s) = [] /\
  Worker.toMain (Pipeline.worker s) = [] /\
  Worker.queueSpaceWaiters (Pipeline.worker s) = [] /\
  Obs.framesInFlight s = 1 /\
  Worker.queueSpaceAvailable (Pipeline.worker s) + Obs.framesInFlight s <> Scenario.BUFFER_SIZE.
Proof. vm_compute. repeat split; try reflexivity. discriminate. Qed.

(** With credits coming back at the enqueue, [MAX_QUEUE_SIZE] does not
    bound the queue: five frames generated after the fill, with no
    animation frame in between, are all queued, and only the sixth is held
    back by the worker. *)
Example queue_exceeds_max_queue_size :
  let s := Scenario.run (Scenario.filled ++ Scenario.one_frame ++ Scenario.one_frame
                         ++ Scenario.one_frame ++ Scenario.one_frame
                         ++ Scenario.one_frame ++ Scenario.one_frame) in
  App.len (App.imageQueue (Pipeline.main s)) = 5 /\
  App.MAX_QUEUE_SIZE Scenario.BUFFER_SIZE = 3 /\
  Worker.queueSpaceAvailable (Pipeline.worker s) = 0 /\
  Worker.queueSpaceWaiters (Pipeline.worker s) = [Msg.mkItem 2 8].
Proof. vm_compute. repeat split; reflexivity. Qed.

Lemma firstn_length_app {A} (l1 l2 : list A) : firstn (length l1) (l1 ++ l2) = l1.
Proof.
  rewrite firstn_app, Nat.sub_diag, firstn_all. cbn. apply app_nil_r.
Qed.

(** While somebody waits the queue is empty. *)
Lemma queue_or_waiters_empty (N H steps : Z) (tr : list Pipeline.Event) :
  2 <= N ->
  App.imageQueue (Pipeline.main (Pipeline.run N H steps tr)) = [] \/
  App.queueWaiters (Pipeline.main (Pipeline.run N H steps tr)) = [].
Proof.
  intro HN.
  destruct (run_holds N H steps HN tr) as (_ & _ & _ & Ph).
  destruct Ph as [Im Iw Er Ei Et | Im Iw Er Ei Et | Im Iw Er Ei Et
                 | Iw Er Ei Et Ey Co Re Tw Po | Gr Er Ei Ey Ge Nr Sp Po Ac Co].
  1, 2, 3: destruct Im as (_ & _ & Qu & _); left; exact Qu.
  all:
    destruct Co as [i Bi Wa Ra Le Cu Ne Qu Te Pe | r Br Wa Ra Le Cu Ne | r Br Wa Ra Qu Le Cu Ne];
    [left; exact Qu | right; exact Wa | left; exact Qu].
Qed.

(** C4.  In every run, whatever the order of the events, the items received
    by the consumer (by the fill loop and by [animate] alike), followed by
    the items in [imageQueue], followed by the images still on their way,
    are the images the worker has posted, in the order of posting.  Every
    call of [queueGet] has received its item or waits for it, and nobody
    waits while an item is queued: with [c] calls of [queueGet] made and
    [d] images delivered to the page, the consumer has received exactly the
    first [min c d] images posted, in the order of posting.  Nothing is
    reordered, duplicated, dropped or held back. *)
Theorem frames_received_in_order (N H steps : Z) (tr : list Pipeline.Event) :
  2 <= N ->
  let s := Pipeline.run N H steps tr in
  let m := Pipeline.main s in
  let posted := Worker.posted (Pipeline.worker s) in
  let consumed := map App.item (App.received m) in
  let waiting := App.imageQueue m ++ Obs.images (Worker.toMain (Pipeline.worker s)) in
  let delivered := App.len posted - App.len (Obs.images (Worker.toMain (Pipeline.worker s))) in
  consumed ++ waiting = posted /\
  map Msg.slotIdx posted = map Msg.slotIdx consumed ++ map Msg.slotIdx waiting /\
  App.getCalls m = App.len (App.received m) + App.len (App.queueWaiters m) /\
  consumed = firstn (Z.to_nat (Z.min (App.getCalls m) delivered)) posted.
Proof.
  intros HN. cbv zeta.
  destruct (run_holds N H steps HN tr) as (_ & F & _).
  pose proof (run_served N H steps tr) as O.
  pose proof (queue_or_waiters_empty N H steps tr HN) as X.
  unfold Inv.fifo in F. unfold Obs.owed in O.
  set (s := Pipeline.run N H steps tr) in *.
  split; [exact F|]. split; [rewrite <- F, map_app; reflexivity|].
  split; [lia|].
  assert (L : Z.min (App.getCalls (Pipeline.main s))
                    (App.len (Worker.posted (Pipeline.worker s))
                     - App.len (Obs.images (Worker.toMain (Pipeline.worker s))))
              = App.len (map App.item (App.received (Pipeline.main s)))).
  { rewrite <- F. unfold App.len in *. rewrite !length_app, !length_map.
    destruct X as [X | X]; rewrite X in *; cbn [length] in *; lia. }
  rewrite L. unfold App.len. rewrite Nat2Z.id.
  rewrite <- F. symmetry. apply firstn_length_app.
Qed.

Lemma frames_received_in_order_witness :
  let s := Scenario.run Scenario.first_rotation in
  let m := Pipeline.main s in
  App.getCalls m = 4 /\
  map Msg.slotIdx (map App.item (App.received m)) = [0; 1; 2; 0] /\
  map App.item (App.received m) = firstn 4 (Worker.posted (Pipeline.worker s)).
Proof.
  intros s m. split; [reflexivity|]. split; [reflexivity|].
  pose proof (frames_received_in_order 3 512 10 Scenario.first_rotation ltac:(lia)) as W.
  cbv zeta in W. destruct W as (_ & _ & _ & W).
  exact W.
Defined.

(** C5.  In every run the [j]-th item received (counting from 0) carries
    slot [j mod N].  The first [N] items are received by the iterations
    [0], ..., [N - 1] of the fill loop, iteration [j] receiving slot [j];
    all later ones are received by [animate].  The animation is running, or
    waiting in a rotation, only after [N] items have been received. *)
Theorem received_slot_cycle (N H steps : Z) (tr : list Pipeline.Event) (j : nat)
    (rc : App.Receipt) :
  2 <= N ->
  let m := Pipeline.main (Pipeline.run N H steps tr) in
  nth_error (App.received m) j = Some rc ->
  Msg.slotIdx (App.item rc) = Z.of_nat j mod N /\
  (Z.of_nat j < N ->
   App.by_cont rc = App.KFill (Z.of_nat j) /\ Msg.slotIdx (App.item rc) = Z.of_nat j) /\
  (N <= Z.of_nat j -> App.by_cont rc = App.KAnimate) /\
  (App.rafScheduled m = true \/ App.queueWaiters m = [App.KAnimate] ->
   N <= App.len (App.received m)).
Proof.
  intros HN. cbv zeta. intro E.
  pose proof (received_frame N H steps HN tr j rc E) as Fr.
  destruct (run_holds N H steps HN tr) as (_ & _ & R & Ph).
  specialize (R j rc E). unfold Inv.receipt_at in R.
  rewrite Fr. cbn [Msg.slotIdx Inv.frame_of].
  split; [reflexivity|]. split; [|split].
  - intro L. replace (Z.of_nat j <? N) with true in R by (symmetry; apply Z.ltb_lt; lia).
    split; [apply R | apply Z.mod_small; lia].
  - intro L. replace (Z.of_nat j <? N) with false in R by (symmetry; apply Z.ltb_ge; lia).
    apply R.
  - intro Going.
    destruct Ph as [Im Iw Er Ei Et | Im Iw Er Ei Et | Im Iw Er Ei Et
                   | Iw Er Ei Et Ey Co Re Tw Po | Gr Er Ei Ey Ge Nr Sp Po Ac Co].
    1, 2, 3:
      destruct Im as (_ & Ra & _ & Wa & _);
      destruct Going as [G | G]; congruence.
    all:
      destruct Co as [i Bi Wa Ra Le Cu Ne Qu Te Pe | r Br Wa Ra Le Cu Ne | r Br Wa Ra Qu Le Cu Ne];
      [ destruct Going as [G | G]; congruence | lia | lia ].
Qed.

Lemma received_slot_cycle_witness :
  let rc := App.mkReceipt (App.KFill 2) 0 1 (Msg.mkItem 2 2) in
  nth_error (App.received (Pipeline.main (Scenario.run Scenario.filled))) 2 = Some rc /\
  Msg.slotIdx (App.item rc) = 2 mod 3.
Proof.
  intro rc. split; [reflexivity|].
  exact (proj1 (received_slot_cycle 3 512 10 Scenario.filled 2 rc ltac:(lia) eq_refl)).
Defined.

(** Scenario A of the specification: with [N = 3] the fill loop receives
    slots 0, 1, 2 in this order, and then the animation starts. *)
Example fill_receives_0_1_2 :
  let m := Pipeline.main (Scenario.run Scenario.filled) in
  map (fun rc => (App.by_cont rc, Msg.slotIdx (App.item rc))) (App.received m)
  = [(App.KFill 0, 0); (App.KFill 1, 1); (App.KFill 2, 2)] /\
  App.rafScheduled m = true.
Proof. vm_compute. split; reflexivity. Qed.

(** C6 (amended).  In every run, an item received by [animate] after a
    rotation carries the slot that the rotation has just retired from
    display: the value of [currTexIdx] before the rotation, which is
    [(currTexIdx + N - 1) mod N] and [(nextTexIdx + N - 2) mod N] in terms of
    the values after it.  It differs from the new [currTexIdx], and for
    [N >= 3] (the code has [N = 3]) from the new [nextTexIdx] as well.  The
    rotation block compares nothing with the slot of the item; its only
    check is that of the pending upload. *)
Theorem rotation_receives_retired_slot (N H steps : Z) (tr : list Pipeline.Event) (j : nat)
    (rc : App.Receipt) :
  2 <= N ->
  nth_error (App.received (Pipeline.main (Pipeline.run N H steps tr))) j = Some rc ->
  App.by_cont rc = App.KAnimate ->
  let slot := Msg.slotIdx (App.item rc) in
  slot = (App.at_curr rc + N - 1) mod N /\
  App.at_next rc = (App.at_curr rc + 1) mod N /\
  slot = (App.at_next rc + N - 2) mod N /\
  slot <> App.at_curr rc /\
  (3 <= N -> slot <> App.at_next rc).
Proof.
  intros HN E K slot.
  pose proof (received_frame N H steps HN tr j rc E) as Fr.
  destruct (run_holds N H steps HN tr) as (_ & _ & R & _).
  specialize (R j rc E). unfold Inv.receipt_at in R.
  destruct (Z.of_nat j <? N) eqn:L.
  - destruct R as (R & _). congruence.
  - apply Z.ltb_ge in L. destruct R as (_ & Rc & Rn).
    subst slot. rewrite Fr, Rc, Rn. cbn [Msg.slotIdx Inv.frame_of].
    rewrite <- !Z.add_sub_assoc, !Z.add_mod_idemp_l by lia.
    repeat split.
    + f_equal; lia.
    + f_equal; lia.
    + f_equal; lia.
    + replace (Z.of_nat j) with ((Z.of_nat j - N + 1) + (N - 1)) at 1 by lia.
      apply mod_shift_neq; lia.
    + intro N3.
      replace (Z.of_nat j) with ((Z.of_nat j - N + 2) + (N - 2)) at 1 by lia.
      apply mod_shift_neq; lia.
Qed.

Lemma rotation_receives_retired_slot_witness :
  let rc := App.mkReceipt App.KAnimate 1 2 (Msg.mkItem 0 3) in
  Msg.slotIdx (App.item rc) = (App.at_curr rc + 3 - 1) mod 3 /\
  Msg.slotIdx (App.item rc) <> App.at_next rc.
Proof.
  intro rc.
  destruct (rotation_receives_retired_slot 3 512 10 Scenario.first_rotation 3 rc
              ltac:(lia) eq_refl eq_refl) as (A & _ & _ & _ & B).
  split; [exact A | apply B; lia].
Defined.

(** C6, as stated, fails on the code.  With the constants of app.js, at the
    first rotation the indices advance to [currTexIdx = 1],
    [nextTexIdx = 2], and the frame taken from the queue carries slot 0.
    Nothing is written to the error console. *)
Lemma rotation_slot_counterexample :
  let m := Pipeline.main (Scenario.run Scenario.first_rotation) in
  nth_error (App.received m) 3
    = Some (App.mkReceipt App.KAnimate 1 2 (Msg.mkItem 0 3)) /\
  App.currTexIdx m = 1 /\ App.nextTexIdx m = 2 /\
  App.pendingUpload m = Some (App.mkPending 0 0 3 0) /\
  0 <> App.nextTexIdx m /\
  App.console m = [].
Proof. vm_compute. repeat split; try reflexivity. discriminate. Qed.

(** C9.  In every run [imageQueue] and [queueWaiters] are never both
    non-empty.  [queueGet] stores a waiter only when the queue is empty, and
    [queuePut] wakes the oldest waiter, if there is one, with the oldest
    item. *)
Theorem queue_and_waiters_exclusive (N H steps : Z) (tr : list Pipeline.Event) :
  2 <= N ->
  let m := Pipeline.main (Pipeline.run N H steps tr) in
  (App.imageQueue m = [] \/ App.queueWaiters m = []) /\
  (forall k m0, App.imageQueue m0 <> [] ->
     App.queueWaiters (fst (App.queueGet N k m0)) = App.queueWaiters m0) /\
  (forall it k ws m0, App.queueWaiters m0 = k :: ws ->
     snd (App.queuePut N it m0) = Some (k, hd it (App.imageQueue m0 ++ [it])) /\
     App.queueWaiters (fst (App.queuePut N it m0)) = ws /\
     App.imageQueue (fst (App.queuePut N it m0)) = tl (App.imageQueue m0 ++ [it])).
Proof.
  intros HN. cbv zeta. split; [|split].
  - destruct (run_holds N H steps HN tr) as (_ & _ & _ & Ph).
    destruct Ph as [Im Iw Er Ei Et | Im Iw Er Ei Et | Im Iw Er Ei Et
                   | Iw Er Ei Et Ey Co Re Tw Po | Gr Er Ei Ey Ge Nr Sp Po Ac Co].
    1, 2, 3: destruct Im as (_ & _ & Qu & _); left; exact Qu.
    all:
      destruct Co as [i Bi Wa Ra Le Cu Ne Qu Te Pe | r Br Wa Ra Le Cu Ne | r Br Wa Ra Qu Le Cu Ne];
      [left; exact Qu | right; exact Wa | left; exact Qu].
  - intros k m0 Q. unfold App.queueGet. cbn.
    destruct (App.imageQueue m0); [congruence|]. cbn.
    destruct (_ <? _); reflexivity.
  - intros it k ws m0 W. unfold App.queuePut. cbn. rewrite W. cbn.
    destruct (_ <? _); repeat split; reflexivity.
Qed.

Lemma queue_and_waiters_exclusive_witness :
  let m := Pipeline.main (Scenario.run Scenario.fourth_queued) in
  App.imageQueue m = [] \/ App.queueWaiters m = [].
Proof.
  intro m.
  exact (proj1 (queue_and_waiters_exclusive 3 512 10 Scenario.fourth_queued ltac:(lia))).
Defined.

(** * Further properties of the code *)

(** ** The conversion loops *)

Section PixelLoops.

Lemma write_length a : forall i v, length (Pixels.write a i v) = length a.
Proof.
  induction a as [|x a IH]; intros [|i] v; cbn; auto.
Qed.

Lemma write_same a : forall i v,
  (i < length a)%nat -> nth_error (Pixels.write a i v) i = Some v.
Proof.
  induction a as [|x a IH]; intros [|i] v L; cbn in *; try lia; auto.
  apply IH. lia.
Qed.

Lemma write_other a : forall i j v,
  i <> j -> nth_error (Pixels.write a i v) j = nth_error a j.
Proof.
  induction a as [|x a IH]; intros [|i] [|j] v D; cbn; auto; try congruence.
Qed.

Lemma pack_loop data a k :
  let r := fold_left (Pixels.packPixel data) (seq 0 k) a in
  length r = length a /\
  (forall i c, (i < k)%nat -> (c < 4)%nat -> (i * 4 + c < length a)%nat ->
     nth_error r (i * 4 + c)
     = Some (if (c <? 3)%nat then Pixels.toUint8Clamp (Pixels.read data (i * 3 + c))
             else 255)) /\
  (forall j, (k * 4 <= j)%nat -> nth_error r j = nth_error a j).
Proof.
  induction k as [|k IH]; cbn zeta.
  - cbn. repeat split; auto. intros; lia.
  - rewrite seq_S, fold_left_app. cbn [fold_left Nat.add].
    cbn zeta in IH. destruct IH as (L & In & Out).
    set (r := fold_left (Pixels.packPixel data) (seq 0 k) a) in *.
    unfold Pixels.packPixel. repeat split.
    + rewrite !write_length. exact L.
    + intros i c Hi Hc Hl.
      destruct (Nat.eq_dec i k) as [-> | D].
      * assert (C : (c = 0 \/ c = 1 \/ c = 2 \/ c = 3)%nat) by lia.
        destruct C as [-> | [-> | [-> | ->]]]; cbn [Nat.ltb Nat.leb]; rewrite ?Nat.add_0_r.
        -- rewrite !write_other by lia. rewrite write_same by lia. reflexivity.
        -- rewrite !write_other by lia.
           rewrite write_same by (rewrite !write_length; lia). reflexivity.
        -- rewrite !write_other by lia.
           rewrite write_same by (rewrite !write_length; lia). reflexivity.
        -- rewrite write_same by (rewrite !write_length; lia). reflexivity.
      * rewrite !write_other by lia. apply In; lia.
    + intros j Hj. rewrite !write_other by lia. apply Out. lia.
Qed.

Lemma conv_loop rgbaData a k :
  let r := fold_left (Pixels.convertPixel rgbaData) (seq 0 k) a in
  length r = length a /\
  (forall i c, (i < k)%nat -> (c < 3)%nat -> (i * 3 + c < length a)%nat ->
     nth_error r (i * 3 + c) = Some (Pixels.toUint8 (Pixels.read rgbaData (i * 4 + c)))) /\
  (forall j, (k * 3 <= j)%nat -> nth_error r j = nth_error a j).
Proof.
  induction k as [|k IH]; cbn zeta.
  - cbn. repeat split; auto. intros; lia.
  - rewrite seq_S, fold_left_app. cbn [fold_left Nat.add].
    cbn zeta in IH. destruct IH as (L & In & Out).
    set (r := fold_left (Pixels.convertPixel rgbaData) (seq 0 k) a) in *.
    unfold Pixels.convertPixel. repeat split.
    + rewrite !write_length. exact L.
    + intros i c Hi Hc Hl.
      destruct (Nat.eq_dec i k) as [-> | D].
      * assert (C : (c = 0 \/ c = 1 \/ c = 2)%nat) by lia.
        destruct C as [-> | [-> | ->]]; rewrite ?Nat.add_0_r.
        -- rewrite !write_other by lia. rewrite write_same by lia. reflexivity.
        -- rewrite !write_other by lia.
           rewrite write_same by (rewrite !write_length; lia). reflexivity.
        -- rewrite write_same by (rewrite !write_length; lia). reflexivity.
      * rewrite !write_other by lia. apply In; lia.
    + intros j Hj. rewrite !write_other by lia. apply Out. lia.
Qed.

End PixelLoops.

Lemma packRGBA_at (n : nat) (data : list Z) (i c : nat) :
  (i < n)%nat -> (c < 4)%nat ->
  nth_error (Pixels.packRGBA n data) (i * 4 + c)
  = Some (if (c <? 3)%nat then Pixels.toUint8Clamp (Pixels.read data (i * 3 + c)) else 255).
Proof.
  intros Hi Hc. unfold Pixels.packRGBA.
  destruct (pack_loop data (repeat 0 (n * 4)) n) as (_ & In & _).
  apply In; try assumption. rewrite repeat_length. lia.
Qed.

Lemma packRGBA_length (n : nat) (data : list Z) :
  length (Pixels.packRGBA n data) = (n * 4)%nat.
Proof.
  unfold Pixels.packRGBA.
  destruct (pack_loop data (repeat 0 (n * 4)) n) as (L & _).
  cbn zeta in L. rewrite L, repeat_length. reflexivity.
Qed.

Lemma toUint8Clamp_byte v : 0 <= Pixels.toUint8Clamp v <= 255.
Proof. destruct v; cbn; lia. Qed.

(** X3.  The buffer the worker posts has four bytes per pixel; the fourth
    byte of every pixel is 255, the other three are the pixel's values in
    [data] clamped to 0..255, and a value missing from [data] gives 0.
    Every byte of the buffer lies in 0..255. *)
Theorem packRGBA_layout (n : nat) (data : list Z) (i : nat) :
  (i < n)%nat ->
  length (Pixels.packRGBA n data) = (n * 4)%nat /\
  nth_error (Pixels.packRGBA n data) (i * 4 + 3) = Some 255 /\
  (forall c, (c < 3)%nat ->
     nth_error (Pixels.packRGBA n data) (i * 4 + c)
     = Some (match nth_error data (i * 3 + c) with
             | Some x => Z.max 0 (Z.min 255 x)
             | None => 0
             end)) /\
  Forall (fun b => 0 <= b <= 255) (Pixels.packRGBA n data).
Proof.
  intro Hi. split; [apply packRGBA_length|]. split; [|split].
  - rewrite packRGBA_at by lia. reflexivity.
  - intros c Hc. rewrite packRGBA_at by lia.
    replace (c <? 3)%nat with true by (symmetry; apply Nat.ltb_lt; exact Hc).
    reflexivity.
  - apply Forall_forall. intros b B.
    apply In_nth_error in B. destruct B as (j & B).
    assert (J : (j < n * 4)%nat).
    { rewrite <- (packRGBA_length n data). apply nth_error_Some. congruence. }
    assert (S : exists i c, j = (i * 4 + c)%nat /\ (c < 4)%nat).
    { exists (j / 4)%nat, (j mod 4)%nat.
      pose proof (Nat.div_mod_eq j 4). pose proof (Nat.mod_upper_bound j 4 ltac:(lia)).
      lia. }
    destruct S as (i0 & c & -> & M).
    rewrite packRGBA_at in B by lia.
    injection B as <-.
    destruct (_ <? 3)%nat; [apply toUint8Clamp_byte | lia].
Qed.

Lemma packRGBA_layout_witness :
  nth_error (Pixels.packRGBA 2 [10; 300; -7; 40; 50]) (1 * 4 + 3) = Some 255 /\
  Pixels.packRGBA 2 [10; 300; -7; 40; 50] = [10; 255; 0; 255; 40; 50; 0; 255].
Proof.
  split; [|reflexivity].
  exact (proj1 (proj2 (packRGBA_layout 2 [10; 300; -7; 40; 50] 1 ltac:(lia)))).
Defined.

Lemma convertRGBAtoRGB_at (n : nat) (rgbaData : list Z) (i c : nat) :
  (i < n)%nat -> (c < 3)%nat ->
  nth_error (Pixels.convertRGBAtoRGB n rgbaData) (i * 3 + c)
  = Some (Pixels.toUint8 (Pixels.read rgbaData (i * 4 + c))).
Proof.
  intros Hi Hc. unfold Pixels.convertRGBAtoRGB.
  destruct (conv_loop rgbaData (repeat 0 (n * 3)) n) as (_ & In & _).
  apply In; try assumption. rewrite repeat_length. lia.
Qed.

Lemma convertRGBAtoRGB_length (n : nat) (rgbaData : list Z) :
  length (Pixels.convertRGBAtoRGB n rgbaData) = (n * 3)%nat.
Proof.
  unfold Pixels.convertRGBAtoRGB.
  destruct (conv_loop rgbaData (repeat 0 (n * 3)) n) as (L & _).
  cbn zeta in L. rewrite L, repeat_length. reflexivity.
Qed.

(** X2.  Whatever buffer it is given, [convertRGBAtoRGB] returns
    [g_tex_W * g_tex_H * 3] bytes: channel [c] of pixel [i] is byte
    [4 * i + c] of the input, the alpha bytes are dropped, and where the
    input is too short the output is 0. *)
Theorem convertRGBAtoRGB_layout (n : nat) (rgbaData : list Z) (i c : nat) :
  (i < n)%nat -> (c < 3)%nat ->
  length (Pixels.convertRGBAtoRGB n rgbaData) = (n * 3)%nat /\
  nth_error (Pixels.convertRGBAtoRGB n rgbaData) (i * 3 + c)
  = Some (match nth_error rgbaData (i * 4 + c) with
          | Some x => x mod 256
          | None => 0
          end) /\
  ((length rgbaData <= i * 4 + c)%nat ->
   nth_error (Pixels.convertRGBAtoRGB n rgbaData) (i * 3 + c) = Some 0).
Proof.
  intros Hi Hc. split; [apply convertRGBAtoRGB_length|].
  rewrite convertRGBAtoRGB_at by assumption. split; [reflexivity|].
  intro Short. unfold Pixels.read.
  apply nth_error_None in Short. rewrite Short. reflexivity.
Qed.

Lemma convertRGBAtoRGB_layout_witness :
  Pixels.convertRGBAtoRGB 2 [1; 2; 3; 255; 4; 5] = [1; 2; 3; 4; 5; 0] /\
  nth_error (Pixels.convertRGBAtoRGB 2 [1; 2; 3; 255; 4; 5]) (1 * 3 + 2) = Some 0.
Proof.
  split; [reflexivity|].
  apply (convertRGBAtoRGB_layout 2 [1; 2; 3; 255; 4; 5] 1 2); cbn; lia.
Defined.

(** X1.  Packing by the worker followed by [convertRGBAtoRGB] on the page
    gives back the image data the worker started from, value for value,
    each clamped to 0..255; data that consists of bytes comes back
    unchanged. *)
Theorem pack_then_convert (n : nat) (data : list Z) :
  length data = (n * 3)%nat ->
  Pixels.convertRGBAtoRGB n (Pixels.packRGBA n data)
    = map (fun x => Z.max 0 (Z.min 255 x)) data /\
  (Forall (fun x => 0 <= x <= 255) data ->
   Pixels.convertRGBAtoRGB n (Pixels.packRGBA n data) = data).
Proof.
  intro Len.
  assert (E : Pixels.convertRGBAtoRGB n (Pixels.packRGBA n data)
              = map (fun x => Z.max 0 (Z.min 255 x)) data).
  { apply nth_error_ext. intro j.
    destruct (Nat.lt_ge_cases j (n * 3)) as [J | J].
    - assert (S : exists i c, j = (i * 3 + c)%nat /\ (c < 3)%nat).
      { exists (j / 3)%nat, (j mod 3)%nat.
        pose proof (Nat.div_mod_eq j 3). pose proof (Nat.mod_upper_bound j 3 ltac:(lia)).
        lia. }
      destruct S as (i & c & -> & M).
      rewrite convertRGBAtoRGB_at by lia.
      unfold Pixels.read. rewrite packRGBA_at by lia.
      replace (c <? 3)%nat with true by (symmetry; apply Nat.ltb_lt; lia).
      rewrite nth_error_map. unfold Pixels.read.
      destruct (nth_error data (i * 3 + c)) as [x|] eqn:X.
      + cbn [Pixels.toUint8 Pixels.toUint8Clamp option_map]. f_equal. apply Z.mod_small. lia.
      + apply nth_error_None in X. lia.
    - assert (A : nth_error (Pixels.convertRGBAtoRGB n (Pixels.packRGBA n data)) j = None)
        by (apply nth_error_None; rewrite convertRGBAtoRGB_length; exact J).
      assert (B : nth_error (map (fun x => Z.max 0 (Z.min 255 x)) data) j = None)
        by (apply nth_error_None; rewrite length_map, Len; exact J).
      congruence. }
  split; [exact E|].
  intro Bytes. rewrite E.
  clear E Len. induction Bytes as [|x l Hx _ IH]; cbn; [reflexivity|].
  rewrite IH. f_equal. lia.
Qed.

Lemma pack_then_convert_witness :
  Pixels.convertRGBAtoRGB 2 (Pixels.packRGBA 2 [10; 20; 30; 40; 50; 60])
  = [10; 20; 30; 40; 50; 60].
Proof.
  apply (pack_then_convert 2 [10; 20; 30; 40; 50; 60] eq_refl).
  repeat constructor; lia.
Defined.

(** ** Layout *)

(** X4.  Whatever the window and the page elements measure, the grid has
    between 1 and 4 rows and between 1 and 6 columns.  When at least one
    tile fits, the tiles of the grid fit into the window across and into
    the height left under the page elements; and the grid is as large as
    that allows: a grid below the maximum leaves no room for a further
    column or row. *)
Theorem grid_within_limits (innerWidth innerHeight : Z) (header stats controls : option Z) :
  let grid := Layout.calculateGridSize innerWidth innerHeight header stats controls in
  let HG := fst grid in
  let WG := snd grid in
  let availableHeight := innerHeight - Layout.uiHeight header stats controls in
  1 <= HG <= Layout.MAX_HG /\ 1 <= WG <= Layout.MAX_WG /\
  (Layout.WP <= innerWidth -> WG * Layout.WP <= innerWidth) /\
  (Layout.HP <= availableHeight -> HG * Layout.HP <= availableHeight) /\
  (WG < Layout.MAX_WG -> innerWidth < (WG + 1) * Layout.WP) /\
  (HG < Layout.MAX_HG -> availableHeight < (HG + 1) * Layout.HP).
Proof.
  unfold Layout.calculateGridSize, Layout.MAX_HG, Layout.MAX_WG, Layout.WP, Layout.HP.
  cbv zeta. cbn [fst snd].
  set (ah := innerHeight - Layout.uiHeight header stats controls).
  pose proof (Z.div_mod innerWidth 128 ltac:(lia)) as Dw.
  pose proof (Z.mod_pos_bound innerWidth 128 ltac:(lia)) as Mw.
  pose proof (Z.div_mod ah 128 ltac:(lia)) as Dh.
  pose proof (Z.mod_pos_bound ah 128 ltac:(lia)) as Mh.
  repeat split; lia.
Qed.

Lemma grid_within_limits_witness :
  Layout.calculateGridSize 1000 700 (Some 60) None (Some 0) = (3, 6) /\
  3 * Layout.HP <= 700 - Layout.uiHeight (Some 60) None (Some 0).
Proof.
  split; [reflexivity|].
  destruct (grid_within_limits 1000 700 (Some 60) None (Some 0)) as (_ & _ & _ & F & _).
  apply F. vm_compute. discriminate.
Defined.


(** ** Texture uploads along a run *)

Section Bounds.

Variables N H steps : Z.
Hypothesis HN : 2 <= N.
Hypothesis HH : 1 <= H.
Hypothesis Hsteps : 1 <= steps.

Lemma frame_slot i : 0 <= Msg.slotIdx (Inv.frame_of N i) < N.
Proof. cbn. apply Z.mod_pos_bound. lia. Qed.

(** The item behind the received ones is the next frame of the worker. *)
Lemma next_item (posted : list Msg.Item) (rs : list App.Receipt) it rest :
  posted = Inv.frames N 0 (length posted) ->
  map App.item rs ++ it :: rest = posted ->
  it = Inv.frame_of N (App.len rs).
Proof.
  intros P F.
  assert (E : nth_error posted (length rs) = Some it).
  { rewrite <- F. rewrite nth_error_app2; rewrite length_map; [|lia].
    rewrite Nat.sub_diag. reflexivity. }
  rewrite P in E. apply nth_error_frames in E. exact E.
Qed.

(** Step 1 of [animate] on a pending upload with rows left: the chunk lies
    inside the texture, the upload keeps its slot, and with the clock past
    1 it is complete. *)
Lemma animate_upload_bounds m :
  Forall (Safe.inBounds N H) (App.glCalls m) ->
  (forall pu, App.pendingUpload m = Some pu ->
     0 <= App.slotIdx pu < N /\ App.pboIdx pu = App.slotIdx pu /\
     0 <= App.rowsUploaded pu < H) ->
  exists p g,
    App.animate_upload H steps m =
    App.mkState (App.isReady m) (App.currTexIdx m) (App.nextTexIdx m) (App.t m)
                (App.imageQueue m) (App.queueWaiters m) p (App.rafScheduled m)
                (App.toWorker m) (App.posts m) (App.console m) g (App.received m)
                (App.getCalls m) /\
    Forall (Safe.inBounds N H) g /\
    (forall pu', p = Some pu' ->
       exists pu, App.pendingUpload m = Some pu /\
                  App.slotIdx pu' = App.slotIdx pu /\ App.pboIdx pu' = App.pboIdx pu /\
                  0 <= App.rowsUploaded pu' < H) /\
    (App.exceeds_one (App.t m) = true -> p = None).
Proof.
  intros G U. unfold App.animate_upload.
  destruct (App.pendingUpload m) as [pu|] eqn:E.
  - destruct (U pu eq_refl) as (S1 & S2 & S3).
    rewrite (upload_active H steps m pu E).
    pose proof (rowsToUpload_bounds steps (H - App.rowsUploaded pu) (App.t m) ltac:(lia)) as B.
    eexists. eexists. split; [reflexivity|]. split; [|split].
    + cbn. apply Forall_app. split; [exact G|]. constructor; [|constructor].
      cbn. repeat split; try lia. 
    + intros pu' E'. exists pu. split; [reflexivity|].
      destruct (H <=? _) eqn:C; [discriminate|]. apply Z.leb_gt in C.
      injection E' as <-. cbn. repeat split; lia.
    + intro T. rewrite (rowsToUpload_late steps Hsteps _ _ T).
      replace (H <=? _) with true by (symmetry; apply Z.leb_le; lia). reflexivity.
  - exists None, (App.glCalls m). split; [|split; [exact G|split; [discriminate|reflexivity]]].
    destruct m. cbn in *. subst. reflexivity.
Qed.

Ltac open_state s :=
  let m := fresh "m" in let w := fresh "w" in
  destruct s as [m w]; destruct m, w;
  cbn [Pipeline.main Pipeline.worker] in *.

Ltac open_idle :=
  repeat match goal with
  | I : Inv.idle_main _ |- _ => unfold Inv.idle_main in I; cbn in I; decompose [and] I; clear I
  | I : Inv.idle_worker _ |- _ => unfold Inv.idle_worker in I; cbn in I; decompose [and] I; clear I
  end.

Ltac open_phase Ph :=
  destruct Ph as [Im Iw Er Ei Et | Im Iw Er Ei Et | Im Iw Er Ei Et
                 | Iw Er Ei Et Ey Co Re Tw Po | Gr Er Ei Ey Ge Nr Sp Po Ac Co];
  cbn in *; open_idle; try congruence.

Ltac arith :=
  unfold App.len in *;
  repeat first [ rewrite length_app in * | rewrite length_map in * | progress cbn [length] in * ];
  lia.

Ltac safe_goal :=
  unfold Safe.holds, Safe.in_progress; cbn;
  split; [ try assumption | first [ assumption | intros pu Epu; try discriminate ] ].

Lemma step_safe s e :
  Inv.holds N s -> Safe.holds N H (Pipeline.main s) ->
  Safe.holds N H (Pipeline.main (Pipeline.step N H steps s e)).
Proof.
  intros Hs Sf. destruct e; unfold Pipeline.step.
  - destruct (Worker.initRunning _); exact Sf.
  - destruct (Worker.generating _); exact Sf.
  - destruct (Worker.toMain (Pipeline.worker s)) as [|msg rest] eqn:E; [exact Sf|].
    destruct Hs as (P & F & R & Ph). destruct Sf as (G & U).
    assert (Nx : forall x l,
               map App.item (App.received (Pipeline.main s)) ++ x :: l
               = Worker.posted (Pipeline.worker s) ->
               x = Inv.frame_of N (App.len (App.received (Pipeline.main s)))).
    { intros x l Q. destruct P as (P1 & _). eapply next_item; eauto. }
    unfold Inv.fifo in F.
    open_state s. cbn in E. subst.
    open_phase Ph.
    + destruct Et as [Et | Et]; [|discriminate]. injection Et as -> ->. subst.
      safe_goal.
    + injection Et as -> ->. subst. unfold App.onmessage, App.fillBuffer.
      destruct (Z.to_nat N) eqn:EN; [lia|].
      safe_goal.
    + subst. inversion Nr as [|? ? NR1 NR2]; subst.
      destruct msg as [| it |]; [exfalso; apply NR1; reflexivity | |].
      * unfold App.onmessage, App.queuePut, App.MAX_QUEUE_SIZE.
        destruct Co as [i Bi Wa Ra Le Cu Ne Qu Te Pe | r Br Wa Ra Le Cu Ne | r Br Wa Ra Qu Le Cu Ne];
          cbn in *; subst.
        -- (* while filling: the item goes to the loop of [fillBuffer] *)
           pose proof (Nx it (Obs.images rest) eq_refl) as It.
           pose proof (frame_slot (App.len received)) as Sl. rewrite <- It in Sl.
           cbn. rewrite len_nil, (ring_nonempty N HN).
           cbn. destruct (Z.to_nat (N - (App.len received + 1))) eqn:Last; cbn.
           ++ safe_goal. apply Forall_app. split; [exact G|]. repeat constructor; cbn; lia.
           ++ safe_goal. apply Forall_app. split; [exact G|]. repeat constructor; cbn; lia.
        -- (* while the animation runs: the item is queued *)
           cbn. destruct (App.len (imageQueue ++ [it]) <? N) eqn:Space; cbn; safe_goal.
        -- (* while [animate] waits: the item starts an upload *)
           pose proof (Nx it (Obs.images rest) eq_refl) as It.
           cbn. rewrite len_nil, (ring_nonempty N HN). cbn.
           safe_goal. injection Epu as <-. cbn.
           repeat split; try lia.
           rewrite It. cbn. f_equal. arith.
      * safe_goal.
  - destruct (App.toWorker (Pipeline.main s)) as [|msg rest] eqn:E; [exact Sf|].
    destruct Sf as (G & U). open_state s. safe_goal.
  - destruct (App.rafScheduled (Pipeline.main s)) eqn:E; [|exact Sf].
    destruct Hs as (P & F & R & Ph). destruct Sf as (G & U).
    assert (Nx : forall x l,
               map App.item (App.received (Pipeline.main s)) ++ x :: l
               = Worker.posted (Pipeline.worker s) ->
               x = Inv.frame_of N (App.len (App.received (Pipeline.main s)))).
    { intros x l Q. destruct P as (P1 & _). eapply next_item; eauto. }
    unfold Inv.fifo in F.
    unfold App.animate.
    destruct (animate_upload_bounds (App.set_rafScheduled false (Pipeline.main s)))
      as (p & g & -> & G' & U' & Late).
    { exact G. }
    { intros pu Epu. destruct (U pu Epu) as (_ & U2 & U3 & U4).
      repeat split; try lia; try assumption.
      - rewrite U4. apply Z.mod_pos_bound. lia.
      - rewrite U4. apply Z.mod_pos_bound. lia. }
    open_state s. cbn in E. subst.
    open_phase Ph.
    + destruct Co; cbn in *; try congruence. subst. arith.
    + destruct Co as [i Bi Wa Ra Le Cu Ne Qu Te Pe | r Br Wa Ra Le Cu Ne | r Br Wa Ra Qu Le Cu Ne];
        cbn in *; try congruence. subst.
      unfold App.animate_advance. cbn.
      destruct (App.exceeds_one t) eqn:T; cbn.
      * (* rotation: the upload is complete *)
        rewrite (Late eq_refl).
        unfold App.rotate, App.queueGet, App.MAX_QUEUE_SIZE. cbn.
        destruct imageQueue as [|it q]; cbn.
        -- safe_goal.
        -- pose proof (Nx it (q ++ Obs.images toMain) eq_refl) as It.
           destruct (App.len q <? N) eqn:Space; cbn; safe_goal;
             injection Epu as <-; cbn; (repeat split; try lia);
             rewrite It; cbn; f_equal; arith.
      * (* no rotation: the upload goes on *)
        safe_goal. destruct (U' pu Epu) as (pu0 & E0 & S1 & S2 & S3).
        destruct (U pu0 E0) as (_ & U2 & U3 & U4). cbn in *.
        repeat split; try lia; congruence.
Qed.

Lemma initial_safe : Safe.holds N H App.initial.
Proof. split; [constructor | discriminate]. Qed.

Lemma run_safe tr : Safe.holds N H (Pipeline.main (Pipeline.run N H steps tr)).
Proof.
  unfold Pipeline.run, Pipeline.exec.
  assert (G : forall s, Inv.holds N s -> Safe.holds N H (Pipeline.main s) ->
                        Safe.holds N H (Pipeline.main (fold_left (Pipeline.step N H steps) tr s))).
  { induction tr as [|e tr IH]; intros s Hs Sf; [exact Sf|].
    cbn [fold_left]. apply IH; [apply step_holds | apply step_safe]; assumption. }
  apply G; [apply initial_holds; exact HN | apply initial_safe].
Qed.

End Bounds.

(** X5.  In every run, every texture upload the page issues stays inside
    what was allocated: the slot of a complete upload and the texture and
    buffer of a chunk are indices of the ring, a chunk uses the buffer of
    its own slot, its rows are at least one and lie inside the texture, and
    the bytes [startByte, startByte + chunkBytes) it copies lie inside the
    buffer of [pboSize] bytes. *)
Theorem uploads_within_bounds (N W H steps : Z) (tr : list Pipeline.Event) (c : App.GLCall) :
  2 <= N -> 1 <= W -> 1 <= H -> 1 <= steps ->
  In c (App.glCalls (Pipeline.main (Pipeline.run N H steps tr))) ->
  match c with
  | App.UploadComplete slot => 0 <= slot < N
  | App.UploadChunk texIdx pbo yOffset chunkHeight =>
      0 <= texIdx < N /\ pbo = texIdx /\
      0 <= yOffset /\ 1 <= chunkHeight /\ yOffset + chunkHeight <= H /\
      0 <= fst (Pixels.chunkRange W yOffset chunkHeight)
        < snd (Pixels.chunkRange W yOffset chunkHeight) /\
      snd (Pixels.chunkRange W yOffset chunkHeight) <= Pixels.pboSize W H
  end.
Proof.
  intros HN HW HH Hs I.
  destruct (run_safe N H steps HN HH Hs tr) as (G & _).
  rewrite Forall_forall in G. specialize (G c I).
  destruct c as [slot | texIdx pbo yOffset chunkHeight]; cbn in G; [exact G|].
  destruct G as (G1 & G2 & G3 & G4 & G5).
  repeat split; try lia; try assumption;
    unfold Pixels.chunkRange, Pixels.pboSize; cbn [fst snd]; nia.
Qed.

Lemma uploads_within_bounds_witness :
  let c := App.UploadChunk 0 0 0 57 in
  In c (App.glCalls (Pipeline.main
          (Scenario.run (Scenario.first_rotation ++ [Pipeline.Frame])))) /\
  snd (Pixels.chunkRange (128 * 6) 0 57) <= Pixels.pboSize (128 * 6) (128 * 4).
Proof.
  intro c.
  assert (I : In c (App.glCalls (Pipeline.main
                (Pipeline.run 3 (128 * 4) 10 (Scenario.first_rotation ++ [Pipeline.Frame]))))).
  { vm_compute. tauto. }
  split; [exact I|].
  exact (proj2 (proj2 (proj2 (proj2 (proj2 (proj2
    (uploads_within_bounds 3 (128 * 6) (128 * 4) 10 _ c
       ltac:(lia) ltac:(lia) ltac:(lia) ltac:(lia) I))))))).
Defined.

(** The byte range of a chunk, as first byte and number of bytes. *)
Lemma chunk_bytes_covers_aux (W : Z) (chunks : list (Z * Z)) : forall a b,
  1 <= W ->
  Obs.covers a b chunks ->
  Obs.covers (a * (W * 3)) (b * (W * 3))
    (map (fun c => (fst (Pixels.chunkRange W (fst c) (snd c)),
                    snd (Pixels.chunkRange W (fst c) (snd c))
                    - fst (Pixels.chunkRange W (fst c) (snd c)))) chunks).
Proof.
  induction chunks as [|[y h] chunks IH]; intros a b HW C; cbn in *.
  - subst. reflexivity.
  - destruct C as (-> & Hh & C). split; [reflexivity|]. split; [nia|].
    replace (a * (W * 3) + (a * (W * 3) + h * (W * 3) - a * (W * 3)))
      with ((a + h) * (W * 3)) by lia.
    apply IH; assumption.
Qed.

(** X6.  Chunks that cut the rows of the texture into consecutive pieces
    become byte ranges that cut the buffer of [pboSize] bytes into
    consecutive non-empty pieces: between them the chunk uploads of one
    frame copy every byte of [rgbData] once. *)
Theorem chunk_bytes_cover (W H : Z) (chunks : list (Z * Z)) :
  1 <= W ->
  Obs.covers 0 H chunks ->
  Obs.covers 0 (Pixels.pboSize W H)
    (map (fun c => (fst (Pixels.chunkRange W (fst c) (snd c)),
                    snd (Pixels.chunkRange W (fst c) (snd c))
                    - fst (Pixels.chunkRange W (fst c) (snd c)))) chunks) /\
  Obs.total
    (map (fun c => (fst (Pixels.chunkRange W (fst c) (snd c)),
                    snd (Pixels.chunkRange W (fst c) (snd c))
                    - fst (Pixels.chunkRange W (fst c) (snd c)))) chunks)
  = Pixels.pboSize W H.
Proof.
  intros HW C.
  pose proof (chunk_bytes_covers_aux W chunks 0 H HW C) as B.
  replace (0 * (W * 3)) with 0 in B by lia.
  replace (H * (W * 3)) with (Pixels.pboSize W H) in B by (unfold Pixels.pboSize; lia).
  split; [exact B|].
  pose proof (covers_total _ _ _ B). lia.
Qed.

Lemma chunk_bytes_cover_witness :
  Obs.covers 0 (Pixels.pboSize 768 512)
    [(0, 300 * 2304); (300 * 2304, 212 * 2304)].
Proof.
  exact (proj1 (chunk_bytes_cover 768 512 [(0, 300); (300, 212)] ltac:(lia)
                  ltac:(cbn; repeat split; lia))).
Defined.

(** X7.  With a ring of at least three textures, in every run a pending
    upload goes into a texture that is neither the one shown
    ([currTexIdx]) nor the one faded in ([nextTexIdx]); it has rows left
    to move and the animation that moves them is scheduled. *)
Theorem upload_spares_displayed_textures (N H steps : Z) (tr : list Pipeline.Event)
    (pu : App.PendingUpload) :
  3 <= N -> 1 <= H -> 1 <= steps ->
  let m := Pipeline.main (Pipeline.run N H steps tr) in
  App.pendingUpload m = Some pu ->
  App.slotIdx pu <> App.currTexIdx m /\ App.slotIdx pu <> App.nextTexIdx m /\
  0 <= App.rowsUploaded pu < H /\ App.rafScheduled m = true.
Proof.
  intros HN HH Hs. cbv zeta. intro E.
  assert (HN2 : 2 <= N) by lia.
  destruct (run_safe N H steps HN2 HH Hs tr) as (_ & U).
  destruct (U pu E) as (Ra & _ & Rows & Sl).
  destruct (run_holds N H steps HN2 tr) as (_ & _ & _ & Ph).
  assert (Co : Inv.consumer N (Pipeline.main (Pipeline.run N H steps tr))).
  { destruct Ph as [Im Iw Er Ei Et | Im Iw Er Ei Et | Im Iw Er Ei Et
                   | Iw Er Ei Et Ey Co Re Tw Po | Gr Er Ei Ey Ge Nr Sp Po Ac Co];
      try assumption; destruct Im as (_ & Ra' & _); congruence. }
  destruct Co as [i Bi Wa Ra' Le Cu Ne Qu Te Pe | r Br Wa Ra' Le Cu Ne | r Br Wa Ra' Qu Le Cu Ne];
    try congruence.
  rewrite Le in Sl.
  replace (N + r - 1) with (r - 1 + 1 * N) in Sl by lia.
  rewrite Z.mod_add in Sl by lia.
  rewrite Sl, Cu, Ne.
  repeat split; try lia; try assumption.
  - intro Q. apply (mod_shift_neq N HN2 (r - 1) 1); [lia|].
    replace (r - 1 + 1) with r by lia. symmetry. exact Q.
  - intro Q. apply (mod_shift_neq N HN2 (r - 1) 2); [lia|].
    replace (r - 1 + 2) with (r + 1) by lia. symmetry. exact Q.
Qed.

Lemma upload_spares_displayed_textures_witness :
  let m := Pipeline.main (Pipeline.run 3 512 10 Scenario.first_rotation) in
  let pu := App.mkPending 0 0 3 0 in
  App.pendingUpload m = Some pu /\
  App.slotIdx pu <> App.currTexIdx m /\ App.slotIdx pu <> App.nextTexIdx m.
Proof.
  intros m pu.
  assert (E : App.pendingUpload m = Some pu) by (vm_compute; reflexivity).
  split; [exact E|].
  destruct (upload_spares_displayed_textures 3 512 10 Scenario.first_rotation pu
              ltac:(lia) ltac:(lia) ltac:(lia) E) as (A & B & _).
  split; [exact A | exact B].
Defined.

(** A ring of two textures is too small: the frame taken at the first
    rotation is uploaded into the texture that is being faded in. *)
Example two_textures_upload_into_displayed :
  let tr := Scenario.boot ++ Scenario.one_frame ++ Scenario.one_frame ++ Scenario.one_frame
            ++ repeat Pipeline.Frame 11 in
  let m := Pipeline.main (Pipeline.run 2 512 10 tr) in
  App.pendingUpload m = Some (App.mkPending 0 0 2 0) /\ App.nextTexIdx m = 0.
Proof. cbv zeta. split; vm_compute; reflexivity. Qed.
